(** * scull FIFO driver: a shallow embedding of driver/scull.c

    The driver keeps one ring of [scull_fifo_size] slots in a kmalloc'ed
    block.  A slot is an [ssize_t] length field followed by
    [scull_fifo_elemsz] payload bytes.  Two counting semaphores ([writer]
    counts free slots, [reader] counts filled slots) and one mutex guard
    the ring.  The functions below follow the C text statement by
    statement; integers are [Z] with the conversions of the C types written
    out, pointers into the ring are byte offsets from [scull_message_queue]. *)

From Stdlib Require Import ZArith List Lia Bool.
Import ListNotations.
Open Scope Z_scope.

(** ** C integer types (LP64) *)

Definition byte := Z.

(** Conversion to [size_t] / [unsigned long]. *)
Definition u64 (x : Z) : Z := x mod 2 ^ 64.

(** Conversion to [ssize_t] / [long]. *)
Definition s64 (x : Z) : Z :=
  let r := x mod 2 ^ 64 in if r <? 2 ^ 63 then r else r - 2 ^ 64.

(** Conversion to [unsigned int]. *)
Definition u32 (x : Z) : Z := x mod 2 ^ 32.

Definition sizeof_ssize_t : Z := 8.
Definition sizeof_size_t : Z := 8.
Definition sizeof_char : Z := 1.

Definition ERESTARTSYS : Z := 512.
Definition EFAULT : Z := 14.
Definition ENOTTY : Z := 25.
Definition ENOMEM : Z := 12.

(** ** The kmalloc'ed block *)

Definition in_bounds (m : list byte) (off n : Z) : bool :=
  (0 <=? off) && (0 <=? n) && (off + n <=? Z.of_nat (length m)).

(** [load_bytes m off n]: the [n] bytes at offset [off]; [None] when the
    access leaves the block. *)
Definition load_bytes (m : list byte) (off n : Z) : option (list byte) :=
  if in_bounds m off n
  then Some (firstn (Z.to_nat n) (skipn (Z.to_nat off) m))
  else None.

(** [store_bytes m off bs]: the block with [bs] written at offset [off]. *)
Definition store_bytes (m : list byte) (off : Z) (bs : list byte)
  : option (list byte) :=
  if in_bounds m off (Z.of_nat (length bs))
  then Some (firstn (Z.to_nat off) m ++ bs
             ++ skipn (Z.to_nat off + length bs) m)
  else None.

(** Little-endian image of an integer on [n] bytes. *)
Fixpoint le_encode (n : nat) (x : Z) : list byte :=
  match n with
  | O => []
  | S k => x mod 256 :: le_encode k (x / 256)
  end.

Fixpoint le_decode (bs : list byte) : Z :=
  match bs with
  | [] => 0
  | b :: r => b + 256 * le_decode r
  end.

(** [*(ssize_t * )p] *)
Definition load_ssize (m : list byte) (off : Z) : option Z :=
  match load_bytes m off sizeof_ssize_t with
  | Some bs => Some (s64 (le_decode bs))
  | None => None
  end.

(** [*(ssize_t * )p = v] *)
Definition store_ssize (m : list byte) (off v : Z) : option (list byte) :=
  store_bytes m off (le_encode (Z.to_nat sizeof_ssize_t) (u64 v)).

(** ** Globals of the module *)

Record scull : Type := mkScull {
  scull_major : Z;
  scull_fifo_elemsz : Z;          (* int, ELEMSZ *)
  scull_fifo_size : Z;            (* int, N *)
  chrdev_region : bool;           (* the device number range is registered *)
  cdev_live : bool;               (* scull_cdev is added to the system *)
  scull_mutex : bool;             (* true: some thread holds the mutex *)
  writer : Z;                     (* semaphore count: free slots *)
  reader : Z;                     (* semaphore count: filled slots *)
  scull_message_queue : option (list byte); (* None: NULL or released *)
  head : Z;                       (* offset of the next slot to read *)
  end_ : Z                        (* offset of the next slot to write *)
}.

Definition set_major (v : Z) (s : scull) : scull :=
  mkScull v (scull_fifo_elemsz s) (scull_fifo_size s) (chrdev_region s)
    (cdev_live s) (scull_mutex s) (writer s) (reader s)
    (scull_message_queue s) (head s) (end_ s).

Definition set_region (v : bool) (s : scull) : scull :=
  mkScull (scull_major s) (scull_fifo_elemsz s) (scull_fifo_size s) v
    (cdev_live s) (scull_mutex s) (writer s) (reader s)
    (scull_message_queue s) (head s) (end_ s).

Definition set_cdev (v : bool) (s : scull) : scull :=
  mkScull (scull_major s) (scull_fifo_elemsz s) (scull_fifo_size s)
    (chrdev_region s) v (scull_mutex s) (writer s) (reader s)
    (scull_message_queue s) (head s) (end_ s).

Definition set_mutex (v : bool) (s : scull) : scull :=
  mkScull (scull_major s) (scull_fifo_elemsz s) (scull_fifo_size s)
    (chrdev_region s) (cdev_live s) v (writer s) (reader s)
    (scull_message_queue s) (head s) (end_ s).

Definition set_writer (v : Z) (s : scull) : scull :=
  mkScull (scull_major s) (scull_fifo_elemsz s) (scull_fifo_size s)
    (chrdev_region s) (cdev_live s) (scull_mutex s) v (reader s)
    (scull_message_queue s) (head s) (end_ s).

Definition set_reader (v : Z) (s : scull) : scull :=
  mkScull (scull_major s) (scull_fifo_elemsz s) (scull_fifo_size s)
    (chrdev_region s) (cdev_live s) (scull_mutex s) (writer s) v
    (scull_message_queue s) (head s) (end_ s).

Definition set_queue (v : option (list byte)) (s : scull) : scull :=
  mkScull (scull_major s) (scull_fifo_elemsz s) (scull_fifo_size s)
    (chrdev_region s) (cdev_live s) (scull_mutex s) (writer s) (reader s)
    v (head s) (end_ s).

Definition set_head (v : Z) (s : scull) : scull :=
  mkScull (scull_major s) (scull_fifo_elemsz s) (scull_fifo_size s)
    (chrdev_region s) (cdev_live s) (scull_mutex s) (writer s) (reader s)
    (scull_message_queue s) v (end_ s).

Definition set_end (v : Z) (s : scull) : scull :=
  mkScull (scull_major s) (scull_fifo_elemsz s) (scull_fifo_size s)
    (chrdev_region s) (cdev_live s) (scull_mutex s) (writer s) (reader s)
    (scull_message_queue s) (head s) v.

(** [sizeof(ssize_t) + scull_fifo_elemsz], computed in [unsigned long]. *)
Definition slot_bytes (s : scull) : Z :=
  u64 (sizeof_ssize_t + scull_fifo_elemsz s).

(** [scull_fifo_size * (sizeof(ssize_t) + scull_fifo_elemsz)] *)
Definition ring_bytes (s : scull) : Z :=
  u64 (scull_fifo_size s * slot_bytes s).

(** [p += sizeof(ssize_t) + scull_fifo_elemsz;
     p = scull_message_queue + (p - scull_message_queue) % ring_bytes]
    on the offset of [p]; [None] is the division by zero. *)
Definition advance (s : scull) (off : Z) : option Z :=
  if ring_bytes s =? 0 then None
  else Some (u64 (off + slot_bytes s) mod ring_bytes s).

(** ** Kernel primitives the driver calls *)

Inductive acquire (A : Type) : Type :=
| Acquired (a : A)
| Interrupted
| Sleeps.
Arguments Acquired {A} a.
Arguments Interrupted {A}.
Arguments Sleeps {A}.

(** [down_interruptible]: takes a permit when the count is positive;
    otherwise the caller sleeps, and a signal makes the call fail without
    touching the count.  [Sleeps] is a caller that nobody wakes. *)
Definition down_interruptible (signal : bool) (count : Z) : acquire Z :=
  if 0 <? count then Acquired (count - 1)
  else if signal then Interrupted else Sleeps.

(** [up]: with no sleeper queued the count, an [unsigned int], is
    incremented. *)
Definition up (count : Z) : Z := u32 (count + 1).

(** [mutex_lock_interruptible]: the fast path takes a free mutex; a held
    mutex makes the caller sleep, and a signal makes the call fail. *)
Definition mutex_lock_interruptible (signal : bool) (held : bool)
  : acquire bool :=
  if held then (if signal then Interrupted else Sleeps) else Acquired true.

Definition mutex_unlock (held : bool) : bool := false.

(** [copy_from_user(to, from, n)]: [src] holds the bytes of the user pages
    mapped at [from].  The mapped prefix is copied, the rest of the
    destination is cleared, and the number of bytes not copied is
    returned. *)
Definition copy_from_user (m : list byte) (to : Z) (src : list byte) (n : Z)
  : option (list byte * Z) :=
  let k := Z.min n (Z.of_nat (length src)) in
  match store_bytes m to
          (firstn (Z.to_nat k) src ++ repeat 0 (Z.to_nat (n - k))) with
  | Some m' => Some (m', n - k)
  | None => None
  end.

(** [copy_to_user(to, from, n)]: [room] is the number of writable bytes
    mapped at [to].  Returns the bytes that reached user space and the
    number of bytes not copied. *)
Definition copy_to_user (m : list byte) (room : Z) (from : Z) (n : Z)
  : option (list byte * Z) :=
  let k := Z.min n (Z.max 0 room) in
  match load_bytes m from k with
  | Some bs => Some (bs, n - k)
  | None => None
  end.

(** What a system call does: it returns a value and leaves a state, it
    sleeps forever, or it runs into undefined behaviour (an access outside
    the block, a NULL block, a division by zero). *)
Inductive outcome (A : Type) : Type :=
| Returned (a : A)
| Blocked
| Undefined.
Arguments Returned {A} a.
Arguments Blocked {A}.
Arguments Undefined {A}.

(** ** Open and close *)

(** Lines 63-73: both only log and succeed. *)
Definition scull_open (s : scull) : Z * scull := (0, s).
Definition scull_release (s : scull) : Z * scull := (0, s).

(** ** scull_read *)

(** The locals initialised on entry, before any synchronisation. *)
Record read_frame : Type := mkReadFrame {
  r_dataPtr : Z;
  r_dataSize : Z
}.

(** Lines 82-83: [dataPtr = head + sizeof(ssize_t)],
    [dataSize = *(ssize_t * )head]. *)
Definition scull_read_entry (s : scull) : option read_frame :=
  match scull_message_queue s with
  | None => None
  | Some m =>
      match load_ssize m (head s) with
      | None => None
      | Some sz => Some (mkReadFrame (head s + sizeof_ssize_t) sz)
      end
  end.

(** Lines 86-112, run on the state found when the caller gets to run.
    [signal]: a signal is pending while the caller sleeps; [room]: writable
    bytes at [buf]; [count]: the [size_t] argument.  The result is the
    return value, the bytes delivered to [buf] and the new state. *)
Definition scull_read_body (fr : read_frame) (signal : bool) (s : scull)
    (room count : Z) : outcome (Z * list byte * scull) :=
  match down_interruptible signal (reader s) with
  | Sleeps => Blocked
  | Interrupted =>
      Returned (- ERESTARTSYS, [], set_writer (up (writer s)) s)
  | Acquired r =>
      let s := set_reader r s in
      match mutex_lock_interruptible signal (scull_mutex s) with
      | Sleeps => Blocked
      | Interrupted =>
          Returned (- ERESTARTSYS, [], set_writer (up (writer s)) s)
      | Acquired l =>
          let s := set_mutex l s in
          let count :=
            if count >? u64 (r_dataSize fr) then u64 (r_dataSize fr)
            else count in
          match scull_message_queue s with
          | None => Undefined
          | Some m =>
              match copy_to_user m room (r_dataPtr fr) count with
              | None => Undefined
              | Some (out, 0) =>
                  match advance s (head s) with
                  | None => Undefined
                  | Some h =>
                      let s := set_head h s in
                      let s := set_mutex (mutex_unlock (scull_mutex s)) s in
                      let s := set_writer (up (writer s)) s in
                      Returned (s64 count, out, s)
                  end
              | Some (out, _) =>
                  let s := set_writer (up (writer s)) s in
                  let s := set_mutex (mutex_unlock (scull_mutex s)) s in
                  Returned (- EFAULT, out, s)
              end
          end
      end
  end.

(** A call that runs from entry to return with no other thread in
    between. *)
Definition scull_read (signal : bool) (s : scull) (room count : Z)
  : outcome (Z * list byte * scull) :=
  match scull_read_entry s with
  | None => Undefined
  | Some fr => scull_read_body fr signal s room count
  end.

(** ** scull_write *)

Record write_frame : Type := mkWriteFrame {
  w_dataPtr : Z;
  w_sizePtr : Z
}.

(** Lines 118-119: [dataPtr = end + sizeof(ssize_t)], [sizePtr = end]. *)
Definition scull_write_entry (s : scull) : write_frame :=
  mkWriteFrame (end_ s + sizeof_ssize_t) (end_ s).

(** Lines 122-150.  [src]: the bytes mapped at [buf]; [count]: the
    [size_t] argument. *)
Definition scull_write_body (fr : write_frame) (signal : bool) (s : scull)
    (src : list byte) (count : Z) : outcome (Z * scull) :=
  match down_interruptible signal (writer s) with
  | Sleeps => Blocked
  | Interrupted => Returned (- ERESTARTSYS, s)
  | Acquired w =>
      let s := set_writer w s in
      match mutex_lock_interruptible signal (scull_mutex s) with
      | Sleeps => Blocked
      | Interrupted =>
          Returned (- ERESTARTSYS, set_reader (up (reader s)) s)
      | Acquired l =>
          let s := set_mutex l s in
          let count :=
            if count >? u64 (scull_fifo_elemsz s)
            then u64 (scull_fifo_elemsz s) else count in
          match scull_message_queue s with
          | None => Undefined
          | Some m =>
              match copy_from_user m (w_dataPtr fr) src count with
              | None => Undefined
              | Some (m, 0) =>
                  match store_ssize m (w_sizePtr fr) count with
                  | None => Undefined
                  | Some m =>
                      let s := set_queue (Some m) s in
                      match advance s (end_ s) with
                      | None => Undefined
                      | Some e =>
                          let s := set_end e s in
                          let s :=
                            set_mutex (mutex_unlock (scull_mutex s)) s in
                          let s := set_reader (up (reader s)) s in
                          Returned (s64 count, s)
                      end
                  end
              | Some (m, _) =>
                  let s := set_queue (Some m) s in
                  let count := u64 (- EFAULT) in
                  let s := set_mutex (mutex_unlock (scull_mutex s)) s in
                  let s := set_reader (up (reader s)) s in
                  Returned (s64 count, s)
              end
          end
      end
  end.

Definition scull_write (signal : bool) (s : scull) (src : list byte)
    (count : Z) : outcome (Z * scull) :=
  scull_write_body (scull_write_entry s) signal s src count.

(** ** scull_ioctl *)

(** The constants of scull.h that the ioctl path uses.  The header is not
    part of the sources at hand, so the embedding takes them as a
    parameter. *)
Record scull_h : Type := mkHeader {
  SCULL_IOC_MAGIC : Z;
  SCULL_IOCGETELEMSZ : Z;
  SCULL_IOC_MAXNR : Z
}.

(** The decoding macros of include/uapi/asm-generic/ioctl.h. *)
Definition _IOC_NR (cmd : Z) : Z := Z.land cmd 255.
Definition _IOC_TYPE (cmd : Z) : Z := Z.land (Z.shiftr cmd 8) 255.
Definition _IOC_SIZE (cmd : Z) : Z := Z.land (Z.shiftr cmd 16) 16383.

(** [access_ok(addr, size)] of include/asm-generic/access_ok.h; [limit] is
    the architecture's TASK_SIZE_MAX. *)
Definition access_ok (limit addr size : Z) : bool :=
  (size <=? limit) && (addr <=? limit - size).

(** Lines 158-183.  [cmd] is an [unsigned int], [arg] an
    [unsigned long]. *)
Definition scull_ioctl (h : scull_h) (limit : Z) (s : scull) (cmd arg : Z)
  : Z * scull :=
  if negb (_IOC_TYPE cmd =? u32 (SCULL_IOC_MAGIC h)) then (- ENOTTY, s)
  else if _IOC_NR cmd >? u32 (SCULL_IOC_MAXNR h) then (- ENOTTY, s)
  else
    let err := negb (access_ok limit arg (_IOC_SIZE cmd)) in
    if err then (- EFAULT, s)
    else if cmd =? u32 (SCULL_IOCGETELEMSZ h) then (scull_fifo_elemsz s, s)
    else (- ENOTTY, s).

(** ** Module load and unload *)

(** What the kernel answers during [scull_init_module]. *)
Record kernel : Type := mkKernel {
  region_result : Z;      (* register_chrdev_region / alloc_chrdev_region *)
  dyn_major : Z;          (* MAJOR(dev) after alloc_chrdev_region *)
  cdev_add_result : Z;    (* cdev_add *)
  kmalloc_ok : bool;      (* kmalloc finds memory *)
  garbage : nat -> byte   (* what the fresh block happens to contain *)
}.

Definition kmalloc (k : kernel) (n : Z) : option (list byte) :=
  if kmalloc_ok k then Some (map (garbage k) (seq 0 (Z.to_nat n)))
  else None.

(** Lines 203-215: [kfree], [cdev_del], [unregister_chrdev_region]. *)
Definition scull_cleanup_module (s : scull) : scull :=
  let s := set_queue None s in
  let s := set_cdev false s in
  set_region false s.

(** Lines 217-269. *)
Definition scull_init_module (k : kernel) (s : scull) : Z * scull :=
  let result := region_result k in
  let s :=
    if negb (scull_major s =? 0) then s
    else set_major (if result <? 0 then 0 else dyn_major k) s in
  if result <? 0 then (result, s)
  else
    let s := set_region true s in
    let result := cdev_add_result k in
    if negb (result =? 0) then (result, scull_cleanup_module s)
    else
      let s := set_cdev true s in
      let s :=
        set_queue
          (kmalloc k
             (u64 (u64 (scull_fifo_size s
                        * u64 (scull_fifo_elemsz s + sizeof_size_t))
                   * sizeof_char))) s in
      match scull_message_queue s with
      | None => (- ENOMEM, scull_cleanup_module s)
      | Some _ =>
          let s := set_head 0 s in
          let s := set_end 0 s in
          let s := set_reader (u32 0) s in
          let s := set_writer (u32 (scull_fifo_size s)) s in
          (0, s)
      end.

(** The globals as the loader leaves them before [scull_init_module]
    runs: static storage is zeroed, the parameters hold what was given at
    load time. *)
Definition unloaded (major elemsz size : Z) : scull :=
  mkScull major elemsz size false false false 0 0 None 0 0.

(** A kernel where everything succeeds and fresh memory is zeroed. *)
Definition kind_kernel : kernel := mkKernel 0 240 0 true (fun _ => 0).

(** The queue after a successful load with [size] slots of [elemsz]
    bytes. *)
Definition loaded (k : kernel) (elemsz size : Z) : scull :=
  snd (scull_init_module k (unloaded 0 elemsz size)).

(** ** The queue a state represents *)

(** The record held by the slot at offset [off]: the length field must be
    a valid length, and the record is that many payload bytes. *)
Definition slot_record (s : scull) (m : list byte) (off : Z)
  : option (list byte) :=
  match load_ssize m off with
  | Some len =>
      if (0 <=? len) && (len <=? scull_fifo_elemsz s)
      then load_bytes m (off + sizeof_ssize_t) len
      else None
  | None => None
  end.

(** The records of the [n] slots met when walking from offset [off] the
    way the read path moves [head]. *)
Fixpoint pending (s : scull) (m : list byte) (off : Z) (n : nat)
  : option (list (list byte)) :=
  match n with
  | O => Some []
  | S k =>
      match slot_record s m off, advance s off with
      | Some r, Some off' =>
          match pending s m off' k with
          | Some q => Some (r :: q)
          | None => None
          end
      | _, _ => None
      end
  end.

(** The records a reader can still claim, oldest first. *)
Definition queue_contents (s : scull) : option (list (list byte)) :=
  match scull_message_queue s with
  | Some m => pending s m (head s) (Z.to_nat (reader s))
  | None => None
  end.

(** The module parameters are C [int]s; a ring needs at least one slot. *)
Definition params_ok (s : scull) : Prop :=
  0 < scull_fifo_size s < 2 ^ 31 /\ 0 <= scull_fifo_elemsz s < 2 ^ 31.

(** [Rep s q]: [s] is a quiescent state of the ring (no call in progress)
    whose cursors and counters agree, and which holds the records [q]. *)
Inductive Rep (s : scull) (q : list (list byte)) : Prop :=
| Rep_intro (m : list byte) (hi : Z)
    (Hparams : params_ok s)
    (Hmutex : scull_mutex s = false)
    (Hqueue : scull_message_queue s = Some m)
    (Hlen : Z.of_nat (length m) = ring_bytes s)
    (Hhi : 0 <= hi < scull_fifo_size s)
    (Hhead : head s = slot_bytes s * hi)
    (Hend : end_ s = slot_bytes s * ((hi + reader s) mod scull_fifo_size s))
    (Hreader : 0 <= reader s <= scull_fifo_size s)
    (Hwriter : writer s = scull_fifo_size s - reader s)
    (Hpending : pending s m (head s) (Z.to_nat (reader s)) = Some q).

(** ** Serial schedules *)

Inductive op : Type :=
| DoWrite (src : list byte) (count : Z)
| DoRead (room count : Z).

(** The bytes a write of [count] bytes from [src] puts in a queue whose
    records hold up to [elemsz] bytes. *)
Definition accepted (elemsz : Z) (src : list byte) (count : Z) : list byte :=
  firstn (Z.to_nat (Z.min count elemsz)) src.

(** Runs the calls one after the other, each from entry to return, with no
    signal pending.  [Some] when every call returned a byte count; the
    list holds what each read delivered. *)
Fixpoint run (ops : list op) (s : scull)
  : option (list (list byte) * scull) :=
  match ops with
  | [] => Some ([], s)
  | DoWrite src count :: rest =>
      match scull_write false s src count with
      | Returned (ret, s') => if 0 <=? ret then run rest s' else None
      | _ => None
      end
  | DoRead room count :: rest =>
      match scull_read false s room count with
      | Returned (ret, out, s') =>
          if 0 <=? ret then
            match run rest s' with
            | Some (outs, s'') => Some (out :: outs, s'')
            | None => None
            end
          else None
      | _ => None
      end
  end.

(** A schedule is serial-feasible when a write never finds the ring full,
    a read never finds it empty, every source holds the bytes the write
    takes, and every read asks for, and has room for, at least the record
    it meets.  [lens] are the lengths of the records pending so far. *)
Fixpoint feasible (elemsz size : Z) (ops : list op) (lens : list Z) : bool :=
  match ops with
  | [] => true
  | DoWrite src count :: rest =>
      let n := Z.min count elemsz in
      (Z.of_nat (length lens) <? size)
      && (0 <=? count) && (count <? 2 ^ 64)
      && (n <=? Z.of_nat (length src))
      && feasible elemsz size rest (lens ++ [n])
  | DoRead room count :: rest =>
      match lens with
      | [] => false
      | len :: lens' =>
          (len <=? count) && (count <? 2 ^ 64) && (len <=? room)
          && feasible elemsz size rest lens'
      end
  end.

(** What the writes of a schedule put in the queue, in order. *)
Fixpoint writes (elemsz : Z) (ops : list op) : list (list byte) :=
  match ops with
  | [] => []
  | DoWrite src count :: rest => accepted elemsz src count :: writes elemsz rest
  | DoRead _ _ :: rest => writes elemsz rest
  end.

(** The number of reads of a schedule. *)
Fixpoint reads (ops : list op) : nat :=
  match ops with
  | [] => O
  | DoWrite _ _ :: rest => reads rest
  | DoRead _ _ :: rest => S (reads rest)
  end.

(** [m'] differs from [m] only inside the byte range [lo, hi). *)
Definition same_outside (m m' : list byte) (lo hi : Z) : Prop :=
  forall off n, off + n <= lo \/ hi <= off ->
    load_bytes m' off n = load_bytes m off n.

(** The state a serial call leaves behind (the state itself when the call
    does not return). *)
Definition after_write (s : scull) (src : list byte) (count : Z) : scull :=
  match scull_write false s src count with
  | Returned (_, s') => s'
  | _ => s
  end.

Definition after_read (s : scull) (room count : Z) : scull :=
  match scull_read false s room count with
  | Returned (_, _, s') => s'
  | _ => s
  end.

(** What the other threads see while a writer that found a free slot is
    between [mutex_lock_interruptible] and [mutex_unlock]: the state of
    [scull_write_body] after its two acquires. *)
Definition writer_in_section (s : scull) : scull :=
  set_mutex true (set_writer (writer s - 1) s).

(** A freshly loaded ring of two slots of eight bytes. *)
Definition demo_ring : scull := loaded kind_kernel 8 2.

(** The constants of scull.h as the LDD3 sources this driver descends
    from define them: magic ['k'], one command [_IO('k', 1)]. *)
Definition ldd_header : scull_h := mkHeader 107 27393 1.

(** TASK_SIZE_MAX of x86-64 with four-level page tables. *)
Definition x86_64_limit : Z := 2 ^ 47 - 4096.

Ltac proj :=
  cbn [scull_major scull_fifo_elemsz scull_fifo_size chrdev_region
       cdev_live scull_mutex writer reader scull_message_queue head end_
       set_major set_region set_cdev set_mutex set_writer set_reader
       set_queue set_head set_end r_dataPtr r_dataSize w_dataPtr w_sizePtr]
    in *.

(** Establishes [Rep] on a closed state by evaluation; [i] is the index
    of the head slot. *)
Ltac rep_by_eval i :=
  eapply (Rep_intro _ _ _ i);
  [ vm_compute; repeat split; (reflexivity || discriminate)
  | vm_compute; reflexivity
  | vm_compute; reflexivity
  | vm_compute; reflexivity
  | vm_compute; repeat split; (reflexivity || discriminate)
  | vm_compute; reflexivity
  | vm_compute; reflexivity
  | vm_compute; repeat split; (reflexivity || discriminate)
  | vm_compute; reflexivity
  | vm_compute; reflexivity ].

(** [n] moves of a cursor, as [scull_read] moves [head] and [scull_write]
    moves [end]. *)
Fixpoint advance_n (s : scull) (n : nat) (off : Z) : option Z :=
  match n with
  | O => Some off
  | S k =>
      match advance s off with
      | Some off' => advance_n s k off'
      | None => None
      end
  end.

(** ** Arithmetic of the C types *)

Lemma u64_small (x : Z) : 0 <= x < 2 ^ 64 -> u64 x = x.
Proof. intros H. unfold u64. apply Z.mod_small. exact H. Qed.

Lemma s64_small (x : Z) : 0 <= x < 2 ^ 63 -> s64 x = x.
Proof.
  intros H. unfold s64. rewrite Z.mod_small by lia.
  destruct (Z.ltb_spec x (2 ^ 63)); lia.
Qed.

Lemma u32_small (x : Z) : 0 <= x < 2 ^ 32 -> u32 x = x.
Proof. intros H. unfold u32. apply Z.mod_small. exact H. Qed.

Lemma up_small (c : Z) : 0 <= c < 2 ^ 32 - 1 -> up c = c + 1.
Proof. intros H. unfold up. apply u32_small. lia. Qed.

Lemma slot_bytes_eq (s : scull) :
  params_ok s -> slot_bytes s = 8 + scull_fifo_elemsz s.
Proof.
  intros [_ He]. unfold slot_bytes, sizeof_ssize_t. apply u64_small. lia.
Qed.

Lemma ring_bytes_eq (s : scull) :
  params_ok s ->
  ring_bytes s = scull_fifo_size s * (8 + scull_fifo_elemsz s).
Proof.
  intros Hp. unfold ring_bytes. rewrite (slot_bytes_eq s Hp).
  destruct Hp as [Hs He]. apply u64_small. split; [nia|].
  apply Z.lt_le_trans with (2 ^ 31 * (2 ^ 31 + 8)); [nia | lia].
Qed.

Lemma advance_slot (s : scull) (i : Z) :
  params_ok s -> 0 <= i < scull_fifo_size s ->
  advance s (slot_bytes s * i)
  = Some (slot_bytes s * ((i + 1) mod scull_fifo_size s)).
Proof.
  intros Hp Hi. unfold advance.
  pose proof (ring_bytes_eq s Hp) as Hr.
  pose proof (slot_bytes_eq s Hp) as Hs.
  destruct Hp as [Hsz He].
  destruct (Z.eqb_spec (ring_bytes s) 0) as [E|_]; [nia|].
  f_equal. rewrite u64_small.
  - replace (slot_bytes s * i + slot_bytes s) with (slot_bytes s * (i + 1))
      by ring.
    rewrite Hr, <- Hs, (Z.mul_comm (scull_fifo_size s)).
    apply Z.mul_mod_distr_l; lia.
  - rewrite Hs. split; [nia|].
    apply Z.lt_le_trans with ((8 + 2 ^ 31) * 2 ^ 31 + (8 + 2 ^ 31)); [nia|lia].
Qed.

Lemma mod_distinct (a k r n : Z) :
  0 <= k < r -> r < n -> (a + k) mod n <> (a + r) mod n.
Proof.
  intros Hk Hr E.
  assert (H : ((a + r) - (a + k)) mod n = 0).
  { rewrite Zminus_mod, E, Z.sub_diag. apply Z.mod_0_l. lia. }
  replace (a + r - (a + k)) with (r - k) in H by ring.
  rewrite Z.mod_small in H; lia.
Qed.

Lemma le_decode_encode (n : nat) (x : Z) :
  le_decode (le_encode n x) = x mod 256 ^ Z.of_nat n.
Proof.
  revert x. induction n as [|n IH]; intros x.
  - simpl. symmetry. apply Z.mod_1_r.
  - cbn [le_encode le_decode]. rewrite IH.
    rewrite Nat2Z.inj_succ, Z.pow_succ_r by lia.
    rewrite Z.rem_mul_r by lia. ring.
Qed.

Lemma le_encode_length (n : nat) (x : Z) : length (le_encode n x) = n.
Proof. revert x. induction n; intros; simpl; auto. Qed.

(** ** Loads and stores in the block *)

Lemma slice_app_l {A : Type} (a b : list A) (o n : nat) :
  (o + n <= length a)%nat ->
  firstn n (skipn o (a ++ b)) = firstn n (skipn o a).
Proof.
  intros H. rewrite skipn_app, firstn_app.
  replace (o - length a)%nat with O by lia.
  rewrite length_skipn.
  replace (n - (length a - o))%nat with O by lia.
  simpl. apply app_nil_r.
Qed.

Lemma slice_app_r {A : Type} (a b : list A) (o n : nat) :
  (length a <= o)%nat ->
  firstn n (skipn o (a ++ b)) = firstn n (skipn (o - length a) b).
Proof.
  intros H. rewrite skipn_app.
  rewrite (skipn_all2 a) by lia. reflexivity.
Qed.

Lemma in_bounds_spec (m : list byte) (off n : Z) :
  in_bounds m off n = true <->
  0 <= off /\ 0 <= n /\ off + n <= Z.of_nat (length m).
Proof.
  unfold in_bounds. rewrite !andb_true_iff, !Z.leb_le. tauto.
Qed.

Lemma load_bytes_Some (m : list byte) (off n : Z) :
  0 <= off -> 0 <= n -> off + n <= Z.of_nat (length m) ->
  load_bytes m off n
  = Some (firstn (Z.to_nat n) (skipn (Z.to_nat off) m)).
Proof.
  intros H1 H2 H3. unfold load_bytes.
  destruct (in_bounds m off n) eqn:E; [reflexivity|].
  assert (in_bounds m off n = true) by (apply in_bounds_spec; lia).
  congruence.
Qed.

Lemma load_bytes_inv (m : list byte) (off n : Z) (bs : list byte) :
  load_bytes m off n = Some bs ->
  0 <= off /\ 0 <= n /\ off + n <= Z.of_nat (length m)
  /\ bs = firstn (Z.to_nat n) (skipn (Z.to_nat off) m)
  /\ length bs = Z.to_nat n.
Proof.
  unfold load_bytes. destruct (in_bounds m off n) eqn:E; [|discriminate].
  intros H. injection H as <-. apply in_bounds_spec in E.
  repeat split; try lia.
  rewrite length_firstn, length_skipn. lia.
Qed.

Lemma load_bytes_prefix (m : list byte) (off n k : Z) (bs : list byte) :
  load_bytes m off n = Some bs -> 0 <= k <= n ->
  load_bytes m off k = Some (firstn (Z.to_nat k) bs).
Proof.
  intros H Hk. apply load_bytes_inv in H.
  destruct H as (H1 & H2 & H3 & -> & _).
  rewrite load_bytes_Some by lia.
  rewrite firstn_firstn. f_equal. f_equal. lia.
Qed.

Lemma store_bytes_Some (m : list byte) (off : Z) (bs : list byte) :
  0 <= off -> off + Z.of_nat (length bs) <= Z.of_nat (length m) ->
  store_bytes m off bs
  = Some (firstn (Z.to_nat off) m ++ bs
          ++ skipn (Z.to_nat off + length bs) m).
Proof.
  intros H1 H2. unfold store_bytes.
  destruct (in_bounds m off (Z.of_nat (length bs))) eqn:E; [reflexivity|].
  assert (in_bounds m off (Z.of_nat (length bs)) = true)
    by (apply in_bounds_spec; lia).
  congruence.
Qed.

Lemma store_bytes_inv (m : list byte) (off : Z) (bs m' : list byte) :
  store_bytes m off bs = Some m' ->
  0 <= off /\ off + Z.of_nat (length bs) <= Z.of_nat (length m)
  /\ m' = firstn (Z.to_nat off) m ++ bs
          ++ skipn (Z.to_nat off + length bs) m
  /\ length m' = length m.
Proof.
  unfold store_bytes.
  destruct (in_bounds m off (Z.of_nat (length bs))) eqn:E; [|discriminate].
  intros H. injection H as <-. apply in_bounds_spec in E.
  repeat split; try lia.
  rewrite !length_app, length_firstn, length_skipn. lia.
Qed.

Lemma load_store_same (m : list byte) (off : Z) (bs m' : list byte) :
  store_bytes m off bs = Some m' ->
  load_bytes m' off (Z.of_nat (length bs)) = Some bs.
Proof.
  intros H. apply store_bytes_inv in H. destruct H as (H1 & H2 & -> & HL).
  rewrite load_bytes_Some by lia.
  f_equal. rewrite Nat2Z.id. rewrite slice_app_r.
  - rewrite length_firstn.
    replace (Z.to_nat off - Nat.min (Z.to_nat off) (length m))%nat
      with O by lia.
    simpl. rewrite firstn_app, firstn_all, Nat.sub_diag. simpl.
    apply app_nil_r.
  - rewrite length_firstn. lia.
Qed.

Lemma load_store_other (m : list byte) (off : Z) (bs m' : list byte)
    (off2 n : Z) :
  store_bytes m off bs = Some m' ->
  off2 + n <= off \/ off + Z.of_nat (length bs) <= off2 ->
  load_bytes m' off2 n = load_bytes m off2 n.
Proof.
  intros H Hd. apply store_bytes_inv in H. destruct H as (H1 & H2 & E & HL).
  unfold load_bytes. unfold in_bounds at 1 2. rewrite HL.
  fold (in_bounds m off2 n).
  destruct (in_bounds m off2 n) eqn:Hb; [|reflexivity].
  apply in_bounds_spec in Hb. destruct Hb as (B1 & B2 & B3).
  f_equal. subst m'.
  set (o := Z.to_nat off) in *.
  destruct Hd as [Hd|Hd].
  - rewrite slice_app_l by (rewrite length_firstn; lia).
    pose proof (slice_app_l (firstn o m) (skipn o m) (Z.to_nat off2)
                  (Z.to_nat n)) as P.
    rewrite firstn_skipn in P. rewrite P; [reflexivity|].
    rewrite length_firstn. lia.
  - rewrite app_assoc.
    assert (L : length (firstn o m ++ bs) = (o + length bs)%nat).
    { rewrite length_app, length_firstn. lia. }
    rewrite slice_app_r by lia. rewrite L.
    pose proof (slice_app_r (firstn (o + length bs) m)
                  (skipn (o + length bs) m) (Z.to_nat off2)
                  (Z.to_nat n)) as P.
    rewrite firstn_skipn in P. rewrite P.
    + rewrite length_firstn. f_equal. f_equal. lia.
    + rewrite length_firstn. lia.
Qed.

Lemma load_store_ssize (m m' : list byte) (off v : Z) :
  store_ssize m off v = Some m' -> 0 <= v < 2 ^ 63 ->
  load_ssize m' off = Some v.
Proof.
  intros H Hv. unfold store_ssize in H. unfold load_ssize.
  pose proof (load_store_same _ _ _ _ H) as L.
  rewrite le_encode_length in L.
  replace (Z.of_nat (Z.to_nat sizeof_ssize_t)) with sizeof_ssize_t in L
    by reflexivity.
  rewrite L. f_equal. rewrite le_decode_encode.
  rewrite u64_small by lia.
  change (256 ^ Z.of_nat (Z.to_nat sizeof_ssize_t)) with (2 ^ 64).
  rewrite Z.mod_small by lia. apply s64_small. exact Hv.
Qed.

Lemma load_ssize_other (m : list byte) (off : Z) (bs m' : list byte)
    (off2 : Z) :
  store_bytes m off bs = Some m' ->
  off2 + sizeof_ssize_t <= off \/ off + Z.of_nat (length bs) <= off2 ->
  load_ssize m' off2 = load_ssize m off2.
Proof.
  intros H Hd. unfold load_ssize.
  rewrite (load_store_other _ _ _ _ _ _ H Hd). reflexivity.
Qed.

(** ** Walking the ring *)

Lemma slot_bytes_ext (s s' : scull) :
  scull_fifo_elemsz s = scull_fifo_elemsz s' -> slot_bytes s = slot_bytes s'.
Proof. intros E. unfold slot_bytes. rewrite E. reflexivity. Qed.

Lemma ring_bytes_ext (s s' : scull) :
  scull_fifo_elemsz s = scull_fifo_elemsz s' ->
  scull_fifo_size s = scull_fifo_size s' -> ring_bytes s = ring_bytes s'.
Proof.
  intros E1 E2. unfold ring_bytes.
  rewrite E2, (slot_bytes_ext s s' E1). reflexivity.
Qed.

Lemma pending_ext (s s' : scull) (m : list byte) (n : nat) :
  scull_fifo_elemsz s = scull_fifo_elemsz s' ->
  scull_fifo_size s = scull_fifo_size s' ->
  forall off, pending s m off n = pending s' m off n.
Proof.
  intros E1 E2. induction n as [|n IH]; intros off; [reflexivity|].
  cbn [pending]. unfold slot_record, advance.
  rewrite (ring_bytes_ext s s' E1 E2), (slot_bytes_ext s s' E1), E1.
  destruct (load_ssize m off) as [len|]; [|reflexivity].
  destruct ((0 <=? len) && (len <=? scull_fifo_elemsz s')); [|reflexivity].
  destruct (load_bytes m (off + sizeof_ssize_t) len); [|reflexivity].
  destruct (ring_bytes s' =? 0); [reflexivity|].
  rewrite IH. reflexivity.
Qed.

Lemma pending_length (s : scull) (m : list byte) (n : nat) :
  forall off q, pending s m off n = Some q -> length q = n.
Proof.
  induction n as [|n IH]; intros off q H; cbn [pending] in H.
  - injection H as <-. reflexivity.
  - destruct (slot_record s m off); [|discriminate].
    destruct (advance s off) as [off'|]; [|discriminate].
    destruct (pending s m off' n) as [q'|] eqn:E; [|discriminate].
    injection H as <-. simpl. f_equal. eapply IH. exact E.
Qed.

Lemma same_outside_store (m m' : list byte) (off : Z) (bs : list byte)
    (lo hi : Z) :
  store_bytes m off bs = Some m' ->
  lo <= off -> off + Z.of_nat (length bs) <= hi ->
  same_outside m m' lo hi.
Proof.
  intros H H1 H2 off2 n Hd.
  apply (load_store_other _ _ _ _ _ _ H). lia.
Qed.

Lemma same_outside_trans (m1 m2 m3 : list byte) (lo hi : Z) :
  same_outside m1 m2 lo hi -> same_outside m2 m3 lo hi ->
  same_outside m1 m3 lo hi.
Proof.
  intros H12 H23 off n Hd. rewrite (H23 off n Hd). apply H12. exact Hd.
Qed.

Lemma slot_record_frame (s : scull) (m m' : list byte) (i t : Z) :
  params_ok s ->
  same_outside m m' (slot_bytes s * t) (slot_bytes s * t + slot_bytes s) ->
  i <> t ->
  slot_record s m' (slot_bytes s * i) = slot_record s m (slot_bytes s * i).
Proof.
  intros Hp Hs Hi. pose proof (slot_bytes_eq s Hp) as E.
  destruct Hp as [_ He]. unfold slot_record, load_ssize.
  assert (D : forall n, 0 <= n <= slot_bytes s ->
            slot_bytes s * i + n <= slot_bytes s * t
            \/ slot_bytes s * t + slot_bytes s <= slot_bytes s * i).
  { intros n Hn. destruct (Z_lt_ge_dec i t); [left|right]; nia. }
  rewrite (Hs _ sizeof_ssize_t)
    by (apply D; unfold sizeof_ssize_t; lia).
  destruct (load_bytes m (slot_bytes s * i) sizeof_ssize_t) as [bs|];
    [|reflexivity].
  destruct (Z.leb_spec 0 (s64 (le_decode bs))); [|reflexivity].
  destruct (Z.leb_spec (s64 (le_decode bs)) (scull_fifo_elemsz s));
    [|reflexivity].
  cbn [andb]. apply Hs.
  unfold sizeof_ssize_t.
  destruct (Z_lt_ge_dec i t); [left|right]; nia.
Qed.

Lemma pending_frame (s : scull) (m m' : list byte) (t : Z) :
  params_ok s ->
  same_outside m m' (slot_bytes s * t) (slot_bytes s * t + slot_bytes s) ->
  forall n i, 0 <= i < scull_fifo_size s ->
    (forall k, 0 <= k < Z.of_nat n ->
               (i + k) mod scull_fifo_size s <> t) ->
    pending s m' (slot_bytes s * i) n = pending s m (slot_bytes s * i) n.
Proof.
  intros Hp Hs. induction n as [|n IH]; intros i Hi Hk; [reflexivity|].
  cbn [pending].
  rewrite (slot_record_frame s m m' i t Hp Hs).
  2:{ specialize (Hk 0). rewrite Z.add_0_r, Z.mod_small in Hk by lia.
      apply Hk. lia. }
  rewrite (advance_slot s i Hp Hi).
  rewrite IH; [reflexivity| |].
  - apply Z.mod_pos_bound. lia.
  - intros k Hk'. rewrite Zplus_mod_idemp_l.
    replace (i + 1 + k) with (i + (k + 1)) by ring. apply Hk. lia.
Qed.

Lemma pending_snoc (s : scull) (m : list byte) (r : list byte) :
  params_ok s ->
  forall n i q, 0 <= i < scull_fifo_size s ->
    pending s m (slot_bytes s * i) n = Some q ->
    slot_record s m
      (slot_bytes s * ((i + Z.of_nat n) mod scull_fifo_size s)) = Some r ->
    pending s m (slot_bytes s * i) (S n) = Some (q ++ [r]).
Proof.
  intros Hp. induction n as [|n IH]; intros i q Hi Hq Hr.
  - cbn [pending] in *. injection Hq as <-.
    rewrite Z.add_0_r, Z.mod_small in Hr by lia.
    rewrite Hr, (advance_slot s i Hp Hi). reflexivity.
  - change (pending s m (slot_bytes s * i) (S (S n)))
      with (match slot_record s m (slot_bytes s * i),
                  advance s (slot_bytes s * i) with
            | Some r0, Some off' =>
                match pending s m off' (S n) with
                | Some q0 => Some (r0 :: q0)
                | None => None
                end
            | _, _ => None
            end).
    cbn [pending] in Hq.
    destruct (slot_record s m (slot_bytes s * i)) as [r0|]; [|discriminate].
    rewrite (advance_slot s i Hp Hi) in *.
    destruct (pending s m
                (slot_bytes s * ((i + 1) mod scull_fifo_size s)) n)
      as [q0|] eqn:E; [|discriminate].
    injection Hq as <-.
    rewrite (IH _ q0); [reflexivity| |exact E|].
    + apply Z.mod_pos_bound. lia.
    + rewrite Zplus_mod_idemp_l.
      replace (i + 1 + Z.of_nat n) with (i + Z.of_nat (S n)) by lia.
      exact Hr.
Qed.

(** ** One call on a quiescent ring *)

Lemma advance_ext (s s' : scull) (off : Z) :
  scull_fifo_elemsz s = scull_fifo_elemsz s' ->
  scull_fifo_size s = scull_fifo_size s' -> advance s off = advance s' off.
Proof.
  intros E1 E2. unfold advance.
  rewrite (ring_bytes_ext s s' E1 E2), (slot_bytes_ext s s' E1). reflexivity.
Qed.

Lemma slot_record_inv (s : scull) (m : list byte) (off : Z) (r : list byte) :
  slot_record s m off = Some r ->
  exists len, load_ssize m off = Some len
    /\ 0 <= len <= scull_fifo_elemsz s
    /\ load_bytes m (off + sizeof_ssize_t) len = Some r
    /\ Z.of_nat (length r) = len.
Proof.
  unfold slot_record. destruct (load_ssize m off) as [len|]; [|discriminate].
  destruct (Z.leb_spec 0 len) as [H0|H0]; [|discriminate].
  destruct (Z.leb_spec len (scull_fifo_elemsz s)) as [H1|H1]; [|discriminate].
  cbn [andb]. intros H. exists len. repeat split; try lia; try exact H.
  apply load_bytes_inv in H. lia.
Qed.

Lemma read_serial (signal : bool) (s : scull) (r : list byte)
    (q : list (list byte)) (room count : Z) :
  Rep s (r :: q) -> 0 <= count < 2 ^ 64 ->
  Z.min count (Z.of_nat (length r)) <= room ->
  exists s',
    scull_read signal s room count
    = Returned (Z.min count (Z.of_nat (length r)),
                firstn (Z.to_nat (Z.min count (Z.of_nat (length r)))) r, s')
    /\ Rep s' q
    /\ advance s (head s) = Some (head s')
    /\ end_ s' = end_ s
    /\ reader s' = reader s - 1
    /\ writer s' = writer s + 1
    /\ scull_fifo_elemsz s' = scull_fifo_elemsz s
    /\ scull_fifo_size s' = scull_fifo_size s.
Proof.
  intros [m hi Hp Hmx Hq Hlen Hhi Hhead Hend Hrd Hwr Hpend] Hc Hroom.
  pose proof (pending_length _ _ _ _ _ Hpend) as HL. simpl in HL.
  assert (Hr1 : 1 <= reader s) by lia.
  replace (Z.to_nat (reader s)) with (S (Z.to_nat (reader s - 1))) in Hpend
    by lia.
  cbn [pending] in Hpend.
  destruct (slot_record s m (head s)) as [r0|] eqn:Hrec; [|discriminate].
  rewrite Hhead in Hpend at 1. rewrite (advance_slot s hi Hp Hhi) in Hpend.
  destruct (pending s m (slot_bytes s * ((hi + 1) mod scull_fifo_size s))
              (Z.to_nat (reader s - 1))) as [q0|] eqn:Hrest; [|discriminate].
  injection Hpend as -> ->.
  apply slot_record_inv in Hrec.
  destruct Hrec as (len & Hld & Hlen' & Hpay & Hrl).
  set (n := Z.min count (Z.of_nat (length r))) in *.
  assert (Hn : 0 <= n <= len) by lia.
  pose proof Hp as [Hsz Hes].
  unfold scull_read, scull_read_entry. rewrite Hq, Hld.
  unfold scull_read_body, down_interruptible.
  destruct (Z.ltb_spec 0 (reader s)); [|lia].
  proj. unfold mutex_lock_interruptible. rewrite Hmx. proj. rewrite Hq.
  rewrite (u64_small len) by lia.
  assert (Hcnt : (if count >? len then len else count) = n).
  { rewrite Z.gtb_ltb. destruct (Z.ltb_spec len count); lia. }
  rewrite Hcnt. unfold copy_to_user.
  replace (Z.min n (Z.max 0 room)) with n by lia.
  rewrite (load_bytes_prefix _ _ _ n _ Hpay) by lia.
  rewrite Z.sub_diag.
  rewrite (advance_ext _ s) by reflexivity.
  assert (Hadv : advance s (head s)
                 = Some (slot_bytes s * ((hi + 1) mod scull_fifo_size s)))
    by (rewrite Hhead; apply (advance_slot s hi Hp Hhi)).
  rewrite Hadv, (s64_small n) by lia.
  eexists. split; [reflexivity|]. proj.
  split; [|repeat split; rewrite ?up_small by lia; try lia; try reflexivity].
  assert (Hhi' : 0 <= (hi + 1) mod scull_fifo_size s < scull_fifo_size s)
    by (apply Z.mod_pos_bound; lia).
  apply Rep_intro with (m := m) (hi := (hi + 1) mod scull_fifo_size s);
    proj; try assumption; try reflexivity; try (rewrite ?up_small by lia; lia).
  - rewrite Hend. f_equal. rewrite Zplus_mod_idemp_l. f_equal. lia.
  - rewrite <- Hrest. apply pending_ext; reflexivity.
Qed.


Lemma write_serial (signal : bool) (s : scull) (q : list (list byte))
    (src : list byte) (count : Z) :
  Rep s q -> Z.of_nat (length q) < scull_fifo_size s ->
  0 <= count < 2 ^ 64 ->
  Z.min count (scull_fifo_elemsz s) <= Z.of_nat (length src) ->
  exists s',
    scull_write signal s src count
    = Returned (Z.min count (scull_fifo_elemsz s), s')
    /\ Rep s' (q ++ [accepted (scull_fifo_elemsz s) src count])
    /\ advance s (end_ s) = Some (end_ s')
    /\ head s' = head s
    /\ reader s' = reader s + 1
    /\ writer s' = writer s - 1
    /\ scull_fifo_elemsz s' = scull_fifo_elemsz s
    /\ scull_fifo_size s' = scull_fifo_size s.
Proof.
  intros [m hi Hp Hmx Hq Hlen Hhi Hhead Hend Hrd Hwr Hpend] Hfull Hc Hsrc.
  pose proof (pending_length _ _ _ _ _ Hpend) as HL.
  pose proof Hp as [Hsz Hes].
  pose proof (slot_bytes_eq s Hp) as Esl.
  pose proof (ring_bytes_eq s Hp) as Ering.
  set (n := Z.min count (scull_fifo_elemsz s)) in *.
  set (t := (hi + reader s) mod scull_fifo_size s) in *.
  assert (Ht : 0 <= t < scull_fifo_size s) by (apply Z.mod_pos_bound; lia).
  assert (Hn : 0 <= n <= scull_fifo_elemsz s) by lia.
  set (bs := firstn (Z.to_nat n) src).
  assert (Hbs : Z.of_nat (length bs) = n)
    by (unfold bs; rewrite length_firstn; lia).
  assert (Hend_lo : 0 <= end_ s) by (rewrite Hend; nia).
  assert (Hend_hi : end_ s + slot_bytes s <= Z.of_nat (length m))
    by (rewrite Hlen, Ering, Hend, Esl; nia).
  destruct (store_bytes m (end_ s + sizeof_ssize_t) bs) as [m1|] eqn:Hst1.
  2:{ rewrite store_bytes_Some in Hst1; [discriminate| |];
      unfold sizeof_ssize_t; lia. }
  pose proof (store_bytes_inv _ _ _ _ Hst1) as (_ & _ & _ & HL1).
  destruct (store_ssize m1 (end_ s) n) as [m2|] eqn:Hst2.
  2:{ unfold store_ssize in Hst2.
      rewrite store_bytes_Some in Hst2; [discriminate| |];
      rewrite ?le_encode_length; unfold sizeof_ssize_t in *; lia. }
  pose proof (store_bytes_inv _ _ _ _ Hst2) as (_ & _ & _ & HL2).
  unfold scull_write, scull_write_entry, scull_write_body,
    down_interruptible.
  destruct (Z.ltb_spec 0 (writer s)); [|lia].
  proj. unfold mutex_lock_interruptible. rewrite Hmx. proj. rewrite Hq.
  rewrite (u64_small (scull_fifo_elemsz s)) by lia.
  assert (Hcnt : (if count >? scull_fifo_elemsz s
                  then scull_fifo_elemsz s else count) = n).
  { rewrite Z.gtb_ltb. destruct (Z.ltb_spec (scull_fifo_elemsz s) count); lia. }
  rewrite Hcnt. unfold copy_from_user.
  replace (Z.min n (Z.of_nat (length src))) with n by lia.
  rewrite Z.sub_diag. change (repeat 0 (Z.to_nat 0)) with (@nil byte).
  rewrite app_nil_r. fold bs. rewrite Hst1, Hst2.
  rewrite (advance_ext _ s) by reflexivity.
  assert (Hadv : advance s (end_ s)
                 = Some (slot_bytes s * ((t + 1) mod scull_fifo_size s)))
    by (rewrite Hend; apply (advance_slot s t Hp Ht)).
  rewrite Hadv, (s64_small n) by lia.
  eexists. split; [reflexivity|]. proj.
  split; [|repeat split; rewrite ?up_small by lia; try lia; try reflexivity].
  assert (Hsame : same_outside m m2 (slot_bytes s * t)
                    (slot_bytes s * t + slot_bytes s)).
  { fold t in Hend. rewrite <- Hend.
    apply same_outside_trans with m1.
    - eapply same_outside_store; [exact Hst1| |];
        unfold sizeof_ssize_t; lia.
    - unfold store_ssize in Hst2.
      eapply same_outside_store; [exact Hst2| |];
        rewrite ?le_encode_length; unfold sizeof_ssize_t; lia. }
  apply Rep_intro with (m := m2) (hi := hi);
    proj; try assumption; try reflexivity; try (rewrite ?up_small by lia; lia).
  - change (Z.of_nat (length m2) = ring_bytes s). lia.
  - change (slot_bytes s * ((t + 1) mod scull_fifo_size s)
            = slot_bytes s * ((hi + up (reader s)) mod scull_fifo_size s)).
    f_equal. unfold t. rewrite up_small by lia.
    rewrite Zplus_mod_idemp_l. f_equal. lia.
  - rewrite up_small by lia. replace (Z.to_nat (reader s + 1))
      with (S (Z.to_nat (reader s))) by lia.
    etransitivity; [apply (pending_ext _ s); reflexivity|].
    rewrite Hhead in *.
    apply (pending_snoc s m2 _ Hp); [exact Hhi| |].
    + rewrite (pending_frame s m m2 t Hp Hsame); [exact Hpend|exact Hhi|].
      intros k Hk. unfold t. apply mod_distinct; lia.
    + rewrite Z2Nat.id by lia. fold t. rewrite <- Hend.
      unfold slot_record.
      rewrite (load_store_ssize _ _ _ _ Hst2) by lia.
      destruct (Z.leb_spec 0 n); [|lia].
      destruct (Z.leb_spec n (scull_fifo_elemsz s)); [|lia].
      cbn [andb]. unfold store_ssize in Hst2.
      rewrite (load_store_other _ _ _ _ _ _ Hst2)
        by (rewrite le_encode_length; unfold sizeof_ssize_t; lia).
      rewrite <- Hbs at 1. unfold accepted. fold n. fold bs.
      apply (load_store_same _ _ _ _ Hst1).
Qed.

(** ** What the representation says *)

Lemma Rep_contents (s : scull) (q : list (list byte)) :
  Rep s q -> queue_contents s = Some q.
Proof.
  intros [m hi _ _ Hq _ _ _ _ _ _ Hp]. unfold queue_contents.
  rewrite Hq. exact Hp.
Qed.

Lemma Rep_params (s : scull) (q : list (list byte)) : Rep s q -> params_ok s.
Proof. intros []. assumption. Qed.

Lemma Rep_reader (s : scull) (q : list (list byte)) :
  Rep s q -> reader s = Z.of_nat (length q)
             /\ writer s = scull_fifo_size s - Z.of_nat (length q).
Proof.
  intros [m hi _ _ _ _ _ _ _ Hr Hw Hp].
  apply pending_length in Hp. lia.
Qed.

Lemma Rep_head_length (s : scull) (r : list byte) (q : list (list byte)) :
  Rep s (r :: q) -> Z.of_nat (length r) <= scull_fifo_elemsz s.
Proof.
  intros [m hi _ _ _ _ _ _ _ Hr _ Hp].
  pose proof (pending_length _ _ _ _ _ Hp) as HL. simpl in HL.
  replace (Z.to_nat (reader s)) with (S (Z.to_nat (reader s - 1))) in Hp
    by lia.
  cbn [pending] in Hp.
  destruct (slot_record s m (head s)) as [r0|] eqn:E; [|discriminate].
  destruct (advance s (head s)); [|discriminate].
  destruct (pending s m z (Z.to_nat (reader s - 1))); [|discriminate].
  injection Hp as -> _. apply slot_record_inv in E.
  destruct E as (len & _ & H & _ & H'). lia.
Qed.


(** ** Module load *)

Lemma kmalloc_size (s : scull) :
  params_ok s ->
  u64 (u64 (scull_fifo_size s * u64 (scull_fifo_elemsz s + sizeof_size_t))
       * sizeof_char)
  = scull_fifo_size s * (scull_fifo_elemsz s + 8).
Proof.
  intros [Hs He]. unfold sizeof_size_t, sizeof_char.
  rewrite (u64_small (scull_fifo_elemsz s + 8)) by lia.
  assert (B : 0 <= scull_fifo_size s * (scull_fifo_elemsz s + 8) < 2 ^ 64).
  { split; [nia|].
    apply Z.lt_le_trans with (2 ^ 31 * (2 ^ 31 + 8)); [nia | lia]. }
  rewrite (u64_small _ B), Z.mul_1_r. apply u64_small. exact B.
Qed.

Lemma init_success (k : kernel) (s : scull) :
  params_ok s -> 0 <= region_result k -> cdev_add_result k = 0 ->
  kmalloc_ok k = true ->
  exists s' m,
    scull_init_module k s = (0, s')
    /\ scull_message_queue s' = Some m
    /\ Z.of_nat (length m)
       = scull_fifo_size s * (scull_fifo_elemsz s + sizeof_size_t)
    /\ writer s' = scull_fifo_size s /\ reader s' = 0
    /\ head s' = 0 /\ end_ s' = 0
    /\ scull_fifo_elemsz s' = scull_fifo_elemsz s
    /\ scull_fifo_size s' = scull_fifo_size s
    /\ scull_mutex s' = scull_mutex s
    /\ cdev_live s' = true /\ chrdev_region s' = true.
Proof.
  intros Hp Hr Hc Hk. pose proof Hp as [Hs He].
  unfold scull_init_module.
  destruct (Z.ltb_spec (region_result k) 0); [lia|].
  rewrite Hc. cbn [Z.eqb negb]. unfold kmalloc. rewrite Hk.
  destruct (negb (scull_major s =? 0)); proj;
    rewrite (kmalloc_size s Hp);
    (eexists; eexists; split; [reflexivity|]; proj;
     repeat split; try reflexivity;
     try (rewrite length_map, length_seq; unfold sizeof_size_t; nia);
     try (apply u32_small; lia)).
Qed.

Lemma init_Rep (k : kernel) (s : scull) :
  params_ok s -> scull_mutex s = false ->
  0 <= region_result k -> cdev_add_result k = 0 -> kmalloc_ok k = true ->
  Rep (snd (scull_init_module k s)) [].
Proof.
  intros Hp Hm Hr Hc Hk.
  destruct (init_success k s Hp Hr Hc Hk)
    as (s' & m & E & Hq & Hl & Hw & Hrd & Hh & He & Ees & Esz & Emx & _).
  rewrite E. cbn [snd].
  assert (Hp' : params_ok s') by (unfold params_ok; rewrite Ees, Esz; exact Hp).
  pose proof (slot_bytes_eq s' Hp') as Esl.
  pose proof (ring_bytes_eq s' Hp') as Ering.
  destruct Hp as [Hs Hes].
  apply Rep_intro with (m := m) (hi := 0); try assumption; try congruence.
  - rewrite Ering, Hl, Ees, Esz. unfold sizeof_size_t. ring.
  - lia.
  - rewrite Hh. ring.
  - rewrite He, Hrd, Z.add_0_r, Z.mod_0_l by lia. ring.
  - lia.
  - lia.
  - rewrite Hrd. reflexivity.
Qed.

(** ** Serial schedules run as a FIFO *)

(** Every serial-feasible schedule runs to the end, and its reads deliver
    the pending records followed by the written ones, in order. *)
Lemma run_feasible (es sz : Z) (ops : list op) :
  forall (s : scull) (q : list (list byte)),
    scull_fifo_elemsz s = es -> scull_fifo_size s = sz ->
    Rep s q ->
    feasible es sz ops (map (fun r => Z.of_nat (length r)) q) = true ->
    exists outs s',
      run ops s = Some (outs, s')
      /\ outs = firstn (reads ops) (q ++ writes es ops)
      /\ Rep s' (skipn (reads ops) (q ++ writes es ops)).
Proof.
  induction ops as [|[src count|room count] rest IH]; intros s q Ees Esz HR Hf.
  - exists [], s. cbn [run reads writes firstn skipn]. rewrite app_nil_r. auto.
  - subst es sz. cbn [feasible] in Hf. rewrite !andb_true_iff in Hf.
    destruct Hf as ((((Hfull & Hc0) & Hc1) & Hsrc) & Hrest).
    rewrite length_map in Hfull.
    assert (Hp : params_ok s) by (destruct HR; assumption).
    destruct Hp as [Hsz Hes].
    apply Z.ltb_lt in Hfull, Hc1. apply Z.leb_le in Hc0, Hsrc.
    destruct (write_serial false s q src count HR) as
        (s' & Ew & HR' & _ & _ & _ & _ & Ees' & Esz'); try lia.
    cbn [run reads writes]. rewrite Ew.
    destruct (Z.leb_spec 0 (Z.min count (scull_fifo_elemsz s))); [|lia].
    destruct (IH s' (q ++ [accepted (scull_fifo_elemsz s) src count])) as (outs & s'' & E & Ho & HR'');
      try congruence.
    + rewrite map_app. cbn [map]. unfold accepted.
      rewrite length_firstn.
      replace (Z.of_nat (Nat.min (Z.to_nat (Z.min count (scull_fifo_elemsz s))) (length src)))
        with (Z.min count (scull_fifo_elemsz s)) by lia.
      exact Hrest.
    + exists outs, s''. rewrite <- app_assoc in Ho, HR''. auto.
  - subst es sz. cbn [feasible] in Hf. destruct q as [|r q]; [discriminate|].
    cbn [map] in Hf. rewrite !andb_true_iff in Hf.
    destruct Hf as (((Hlen & Hc1) & Hroom) & Hrest).
    apply Z.ltb_lt in Hc1. apply Z.leb_le in Hlen, Hroom.
    destruct (read_serial false s r q room count HR) as
        (s' & Er & HR' & _ & _ & _ & _ & Ees' & Esz'); try lia.
    cbn [run reads writes]. rewrite Er.
    replace (Z.min count (Z.of_nat (length r))) with (Z.of_nat (length r))
      by lia.
    destruct (Z.leb_spec 0 (Z.of_nat (length r))); [|lia].
    destruct (IH s' q) as (outs & s'' & E & Ho & HR''); try congruence.
    rewrite E. exists (r :: outs), s''. rewrite Nat2Z.id, firstn_all.
    cbn [app firstn skipn]. rewrite Ho. auto.
Qed.

(** ** The error paths, as the code takes them *)

(** Every return of [scull_write] leaves the sum of the two counts as
    it found it. *)
Lemma write_counters (signal : bool) (s s' : scull) (src : list byte)
    (count ret : Z) :
  0 <= reader s < 2 ^ 32 - 1 ->
  scull_write signal s src count = Returned (ret, s') ->
  writer s' + reader s' = writer s + reader s.
Proof.
  intros Hr. pose proof (up_small (reader s) Hr) as Hup.
  unfold scull_write, scull_write_entry, scull_write_body,
    down_interruptible, mutex_lock_interruptible.
  destruct (0 <? writer s); [|destruct signal; intros H; inversion H; lia].
  proj. destruct (scull_mutex s).
  { destruct signal; intros H; inversion H; subst; proj; lia. }
  proj. destruct (scull_message_queue s) as [m|]; [|discriminate].
  destruct (copy_from_user _ _ _ _) as [[m1 [|p|p]]|]; try discriminate.
  - destruct (store_ssize _ _ _) as [m2|]; [|discriminate].
    destruct (advance _ _) as [e|]; [|discriminate].
    intros H; inversion H; subst; proj; lia.
  - intros H; inversion H; subst; proj; lia.
  - intros H; inversion H; subst; proj; lia.
Qed.

(** A return of [scull_read] leaves the sum as it found it, except when
    the wait for a filled slot is interrupted: [writer] then grows by
    one although no permit was taken. *)
Lemma read_counters (signal : bool) (s s' : scull) (room count ret : Z)
    (out : list byte) :
  0 <= writer s < 2 ^ 32 - 1 ->
  scull_read signal s room count = Returned (ret, out, s') ->
  writer s' + reader s'
  = writer s + reader s + (if 0 <? reader s then 0 else 1).
Proof.
  intros Hw. pose proof (up_small (writer s) Hw) as Hup.
  unfold scull_read. destruct (scull_read_entry s) as [fr|]; [|discriminate].
  unfold scull_read_body, down_interruptible, mutex_lock_interruptible.
  destruct (0 <? reader s);
    [|destruct signal; intros H; inversion H; subst; proj; lia].
  proj. destruct (scull_mutex s).
  { destruct signal; intros H; inversion H; subst; proj; lia. }
  proj. destruct (scull_message_queue s) as [m|]; [|discriminate].
  destruct (copy_to_user _ _ _ _) as [[o [|p|p]]|]; try discriminate.
  - destruct (advance _ _) as [e|]; [|discriminate].
    intros H; inversion H; subst; proj; lia.
  - intros H; inversion H; subst; proj; lia.
  - intros H; inversion H; subst; proj; lia.
Qed.

Lemma write_sem_interrupted (s : scull) (src : list byte) (count : Z) :
  writer s <= 0 ->
  scull_write true s src count = Returned (- ERESTARTSYS, s).
Proof.
  intros H. unfold scull_write, scull_write_body, down_interruptible.
  destruct (Z.ltb_spec 0 (writer s)); [lia|reflexivity].
Qed.

Lemma write_lock_interrupted (s : scull) (src : list byte) (count : Z) :
  0 < writer s -> scull_mutex s = true ->
  scull_write true s src count
  = Returned (- ERESTARTSYS,
              set_reader (up (reader s)) (set_writer (writer s - 1) s)).
Proof.
  intros H Hm. unfold scull_write, scull_write_body, down_interruptible,
    mutex_lock_interruptible.
  destruct (Z.ltb_spec 0 (writer s)); [|lia]. proj. rewrite Hm. reflexivity.
Qed.

Lemma read_sem_interrupted (fr : read_frame) (s : scull) (room count : Z) :
  reader s <= 0 ->
  scull_read_body fr true s room count
  = Returned (- ERESTARTSYS, [], set_writer (up (writer s)) s).
Proof.
  intros H. unfold scull_read_body, down_interruptible.
  destruct (Z.ltb_spec 0 (reader s)); [lia|reflexivity].
Qed.

Lemma read_lock_interrupted (fr : read_frame) (s : scull) (room count : Z) :
  0 < reader s -> scull_mutex s = true ->
  scull_read_body fr true s room count
  = Returned (- ERESTARTSYS, [],
              set_writer (up (writer s)) (set_reader (reader s - 1) s)).
Proof.
  intros H Hm. unfold scull_read_body, down_interruptible,
    mutex_lock_interruptible.
  destruct (Z.ltb_spec 0 (reader s)); [|lia]. proj. rewrite Hm. reflexivity.
Qed.


(** A transfer that faults after the permit was taken: the call hands a
    permit to the other side and its own count stays one lower. *)
Lemma write_fault (signal : bool) (s : scull) (q : list (list byte))
    (src : list byte) (count : Z) :
  Rep s q -> Z.of_nat (length q) < scull_fifo_size s ->
  0 <= count < 2 ^ 64 ->
  Z.of_nat (length src) < Z.min count (scull_fifo_elemsz s) ->
  exists s',
    scull_write signal s src count = Returned (- EFAULT, s')
    /\ writer s' = writer s - 1 /\ reader s' = reader s + 1
    /\ end_ s' = end_ s /\ head s' = head s.
Proof.
  intros [m hi Hp Hmx Hq Hlen Hhi Hhead Hend Hrd Hwr Hpend] Hfull Hc Hsrc.
  pose proof (pending_length _ _ _ _ _ Hpend) as HL.
  pose proof Hp as [Hsz Hes].
  pose proof (slot_bytes_eq s Hp) as Esl.
  pose proof (ring_bytes_eq s Hp) as Ering.
  set (n := Z.min count (scull_fifo_elemsz s)) in *.
  set (t := (hi + reader s) mod scull_fifo_size s) in *.
  assert (Ht : 0 <= t < scull_fifo_size s) by (apply Z.mod_pos_bound; lia).
  set (k := Z.of_nat (length src)) in *.
  set (bs := firstn (Z.to_nat k) src ++ repeat 0 (Z.to_nat (n - k))).
  assert (Hbs : Z.of_nat (length bs) = n).
  { unfold bs. rewrite length_app, length_firstn, repeat_length. lia. }
  assert (Hend_lo : 0 <= end_ s) by (rewrite Hend; nia).
  assert (Hend_hi : end_ s + slot_bytes s <= Z.of_nat (length m))
    by (rewrite Hlen, Ering, Hend, Esl; nia).
  unfold scull_write, scull_write_entry, scull_write_body,
    down_interruptible.
  destruct (Z.ltb_spec 0 (writer s)); [|lia].
  proj. unfold mutex_lock_interruptible. rewrite Hmx. proj. rewrite Hq.
  rewrite (u64_small (scull_fifo_elemsz s)) by lia.
  assert (Hcnt : (if count >? scull_fifo_elemsz s
                  then scull_fifo_elemsz s else count) = n).
  { rewrite Z.gtb_ltb. destruct (Z.ltb_spec (scull_fifo_elemsz s) count); lia. }
  rewrite Hcnt. unfold copy_from_user. fold k.
  replace (Z.min n k) with k by lia. fold bs.
  rewrite store_bytes_Some by (unfold sizeof_ssize_t; lia).
  destruct (n - k) as [|p|p] eqn:Enk; try lia.
  eexists. split; [reflexivity|]. proj. rewrite ?up_small by lia.
  repeat split; lia.
Qed.

Lemma read_fault (signal : bool) (s : scull) (r : list byte)
    (q : list (list byte)) (room count : Z) :
  Rep s (r :: q) -> 0 <= count < 2 ^ 64 ->
  0 <= room < Z.min count (Z.of_nat (length r)) ->
  exists out s',
    scull_read signal s room count = Returned (- EFAULT, out, s')
    /\ reader s' = reader s - 1 /\ writer s' = writer s + 1
    /\ head s' = head s /\ end_ s' = end_ s.
Proof.
  intros HR Hc Hroom. pose proof (Rep_head_length _ _ _ HR) as Hle.
  destruct HR as [m hi Hp Hmx Hq Hlen Hhi Hhead Hend Hrd Hwr Hpend].
  pose proof (pending_length _ _ _ _ _ Hpend) as HL. simpl in HL.
  replace (Z.to_nat (reader s)) with (S (Z.to_nat (reader s - 1))) in Hpend
    by lia.
  cbn [pending] in Hpend.
  destruct (slot_record s m (head s)) as [r0|] eqn:Hrec; [|discriminate].
  destruct (advance s (head s)); [|discriminate].
  destruct (pending s m z (Z.to_nat (reader s - 1))); [|discriminate].
  injection Hpend as -> ->.
  apply slot_record_inv in Hrec.
  destruct Hrec as (len & Hld & Hlen' & Hpay & Hrl).
  set (n := Z.min count (Z.of_nat (length r))) in *.
  pose proof Hp as [Hsz Hes].
  unfold scull_read, scull_read_entry. rewrite Hq, Hld.
  unfold scull_read_body, down_interruptible.
  destruct (Z.ltb_spec 0 (reader s)); [|lia].
  proj. unfold mutex_lock_interruptible. rewrite Hmx. proj. rewrite Hq.
  rewrite (u64_small len) by lia.
  assert (Hcnt : (if count >? len then len else count) = n).
  { rewrite Z.gtb_ltb. destruct (Z.ltb_spec len count); lia. }
  rewrite Hcnt. unfold copy_to_user.
  replace (Z.min n (Z.max 0 room)) with (Z.max 0 room) by lia.
  rewrite (load_bytes_prefix _ _ _ (Z.max 0 room) _ Hpay) by lia.
  destruct (n - Z.max 0 room) as [|p|p] eqn:Enk; try lia.
  eexists. eexists. split; [reflexivity|]. proj. rewrite ?up_small by lia.
  repeat split; lia.
Qed.

(** * Properties of the specification, checked on the code *)

(** C4 (FIFO).  Starting from an empty quiescent ring, take any serial
    schedule of writes and reads in which every call runs from entry to
    return before the next one starts, no write finds the ring full, no
    read finds it empty, and every read asks for at least the length of
    the record it meets.  Then every call returns, and the reads deliver,
    in order, exactly the bytes the writes put in the queue: the i-th read
    returns the bytes accepted from the i-th write. *)
Theorem fifo_serial (s : scull) (ops : list op) :
  Rep s [] ->
  feasible (scull_fifo_elemsz s) (scull_fifo_size s) ops [] = true ->
  exists outs s',
    run ops s = Some (outs, s')
    /\ outs = firstn (reads ops) (writes (scull_fifo_elemsz s) ops).
Proof.
  intros HR Hf.
  destruct (run_feasible (scull_fifo_elemsz s) (scull_fifo_size s) ops s []
              eq_refl eq_refl HR Hf) as (outs & s' & E & Ho & _).
  exists outs, s'. split; [exact E|exact Ho].
Qed.

Lemma fifo_serial_witness :
  exists outs s',
    run [DoWrite [97; 98] 2; DoWrite [99; 100; 101; 102] 4; DoRead 8 8;
         DoWrite [103; 104; 105; 106; 107; 108; 109; 110; 111; 112] 10;
         DoRead 8 8; DoRead 8 8] demo_ring = Some (outs, s')
    /\ outs = [[97; 98]; [99; 100; 101; 102];
               [103; 104; 105; 106; 107; 108; 109; 110]].
Proof.
  apply (fifo_serial demo_ring
           [DoWrite [97; 98] 2; DoWrite [99; 100; 101; 102] 4; DoRead 8 8;
            DoWrite [103; 104; 105; 106; 107; 108; 109; 110; 111; 112] 10;
            DoRead 8 8; DoRead 8 8]).
  - rep_by_eval 0.
  - vm_compute. reflexivity.
Defined.

(** C5 (truncation).  On an empty quiescent ring, a write of more than
    [scull_fifo_elemsz] bytes is not rejected: it returns
    [scull_fifo_elemsz], and the next read, given room and a count of at
    least [scull_fifo_elemsz], returns exactly [scull_fifo_elemsz] bytes,
    the first [scull_fifo_elemsz] bytes of the source. *)
Theorem write_truncates (signal : bool) (s : scull) (src : list byte)
    (count room count' : Z) :
  Rep s [] ->
  scull_fifo_elemsz s < count < 2 ^ 64 ->
  scull_fifo_elemsz s <= Z.of_nat (length src) ->
  scull_fifo_elemsz s <= count' < 2 ^ 64 ->
  scull_fifo_elemsz s <= room ->
  exists s1 s2,
    scull_write signal s src count = Returned (scull_fifo_elemsz s, s1)
    /\ scull_read signal s1 room count'
       = Returned (scull_fifo_elemsz s,
                   firstn (Z.to_nat (scull_fifo_elemsz s)) src, s2)
    /\ Z.of_nat (length (firstn (Z.to_nat (scull_fifo_elemsz s)) src))
       = scull_fifo_elemsz s.
Proof.
  intros HR Hc Hsrc Hc' Hroom.
  pose proof (Rep_params _ _ HR) as [Hsz Hes].
  destruct (write_serial signal s [] src count HR)
    as (s1 & Ew & HR1 & _ & _ & _ & _ & Ees & _); cbn [length]; try lia.
  replace (Z.min count (scull_fifo_elemsz s)) with (scull_fifo_elemsz s)
    in Ew by lia.
  cbn [app] in HR1. unfold accepted in HR1.
  replace (Z.min count (scull_fifo_elemsz s)) with (scull_fifo_elemsz s)
    in HR1 by lia.
  set (r := firstn (Z.to_nat (scull_fifo_elemsz s)) src) in *.
  assert (Hr : Z.of_nat (length r) = scull_fifo_elemsz s)
    by (unfold r; rewrite length_firstn; lia).
  destruct (read_serial signal s1 r [] room count' HR1)
    as (s2 & Er & _); try lia.
  replace (Z.min count' (Z.of_nat (length r))) with (scull_fifo_elemsz s)
    in Er by lia.
  rewrite <- Hr in Er at 2. rewrite Nat2Z.id, firstn_all in Er.
  exists s1, s2. auto.
Qed.

Lemma write_truncates_witness :
  exists s1 s2,
    scull_write false demo_ring
      [1; 2; 3; 4; 5; 6; 7; 8; 9; 10; 11] 11 = Returned (8, s1)
    /\ scull_read false s1 64 64
       = Returned (8, [1; 2; 3; 4; 5; 6; 7; 8], s2)
    /\ Z.of_nat (length [1; 2; 3; 4; 5; 6; 7; 8]) = 8.
Proof.
  apply (write_truncates false demo_ring
           [1; 2; 3; 4; 5; 6; 7; 8; 9; 10; 11] 11 64 64).
  - rep_by_eval 0.
  - vm_compute. split; reflexivity.
  - vm_compute. discriminate.
  - vm_compute. split; [discriminate|reflexivity].
  - vm_compute. discriminate.
Defined.

(** C7 (construction).  With [scull_fifo_size] slots of
    [scull_fifo_elemsz] bytes and the device registered, a load whose
    allocation succeeds returns 0 with a block of
    [scull_fifo_size * (scull_fifo_elemsz + sizeof(size_t))] bytes,
    [writer = scull_fifo_size], [reader = 0] and both cursors at the
    origin of the block; a load whose allocation fails returns [-ENOMEM]
    and leaves no block, no live character device and no registered
    device number. *)
Theorem init_constructs (k : kernel) (s : scull) :
  params_ok s -> 0 <= region_result k -> cdev_add_result k = 0 ->
  (kmalloc_ok k = true ->
   exists s' m,
     scull_init_module k s = (0, s')
     /\ scull_message_queue s' = Some m
     /\ Z.of_nat (length m)
        = scull_fifo_size s * (scull_fifo_elemsz s + sizeof_size_t)
     /\ writer s' = scull_fifo_size s /\ reader s' = 0
     /\ head s' = 0 /\ end_ s' = 0)
  /\ (kmalloc_ok k = false ->
      exists s',
        scull_init_module k s = (- ENOMEM, s')
        /\ scull_message_queue s' = None
        /\ cdev_live s' = false /\ chrdev_region s' = false).
Proof.
  intros Hp Hr Hc. split; intros Hk.
  - destruct (init_success k s Hp Hr Hc Hk)
      as (s' & m & E & Hq & Hl & Hw & Hrd & Hh & He & _).
    exists s', m. auto 10.
  - unfold scull_init_module.
    destruct (Z.ltb_spec (region_result k) 0); [lia|].
    rewrite Hc. cbn [Z.eqb negb]. unfold kmalloc. rewrite Hk.
    destruct (negb (scull_major s =? 0)); proj;
      (eexists; split; [reflexivity|]; repeat split).
Qed.

Lemma init_constructs_witness :
  (exists s' m,
     scull_init_module kind_kernel (unloaded 0 8 2) = (0, s')
     /\ scull_message_queue s' = Some m
     /\ Z.of_nat (length m) = 2 * (8 + sizeof_size_t)
     /\ writer s' = 2 /\ reader s' = 0 /\ head s' = 0 /\ end_ s' = 0)
  /\ (exists s',
        scull_init_module (mkKernel 0 240 0 false (fun _ => 0))
          (unloaded 0 8 2) = (- ENOMEM, s')
        /\ scull_message_queue s' = None
        /\ cdev_live s' = false /\ chrdev_region s' = false).
Proof.
  split.
  - apply (init_constructs kind_kernel (unloaded 0 8 2)).
    + vm_compute. repeat split; (reflexivity || discriminate).
    + vm_compute. discriminate.
    + reflexivity.
    + reflexivity.
  - apply (init_constructs (mkKernel 0 240 0 false (fun _ => 0))
             (unloaded 0 8 2)).
    + vm_compute. repeat split; (reflexivity || discriminate).
    + vm_compute. discriminate.
    + reflexivity.
    + reflexivity.
Defined.

(** A short read followed by serial calls that all succeed.  On a
    quiescent ring whose oldest record [r] is longer than the requested
    count, a read with room for the count returns exactly the count,
    delivers the first count bytes of [r], and moves [head] one full slot
    on; the ring then holds the younger records, and the reads of every
    serial-feasible schedule that follows deliver those records and then
    the later writes. *)
Theorem short_read_discards (signal : bool) (s : scull) (r : list byte)
    (q : list (list byte)) (room count : Z) :
  Rep s (r :: q) -> 0 <= count < Z.of_nat (length r) -> count <= room ->
  exists s',
    scull_read signal s room count
    = Returned (count, firstn (Z.to_nat count) r, s')
    /\ advance s (head s) = Some (head s')
    /\ queue_contents s' = Some q
    /\ forall ops,
         feasible (scull_fifo_elemsz s) (scull_fifo_size s) ops
           (map (fun x => Z.of_nat (length x)) q) = true ->
         exists outs s'',
           run ops s' = Some (outs, s'')
           /\ outs = firstn (reads ops)
                       (q ++ writes (scull_fifo_elemsz s) ops).
Proof.
  intros HR Hc Hroom.
  pose proof (Rep_head_length _ _ _ HR) as Hle.
  pose proof (Rep_params _ _ HR) as [Hsz Hes].
  destruct (read_serial signal s r q room count HR)
    as (s' & Er & HR' & Hadv & _ & _ & _ & Ees & Esz); try lia.
  replace (Z.min count (Z.of_nat (length r))) with count in Er by lia.
  exists s'. repeat split; try assumption.
  - apply Rep_contents. exact HR'.
  - intros ops Hf.
    destruct (run_feasible (scull_fifo_elemsz s) (scull_fifo_size s) ops s' q
                Ees Esz HR' Hf) as (outs & s'' & E & Ho & _).
    exists outs, s''. auto.
Qed.

Lemma short_read_discards_witness :
  exists s',
    scull_read false (after_write demo_ring [97; 98; 99; 100; 101] 5) 2 2
    = Returned (2, [97; 98], s')
    /\ advance (after_write demo_ring [97; 98; 99; 100; 101] 5)
         (head (after_write demo_ring [97; 98; 99; 100; 101] 5))
       = Some (head s')
    /\ queue_contents s' = Some []
    /\ forall ops,
         feasible 8 2 ops [] = true ->
         exists outs s'',
           run ops s' = Some (outs, s'')
           /\ outs = firstn (reads ops) ([] ++ writes 8 ops).
Proof.
  apply (short_read_discards false
           (after_write demo_ring [97; 98; 99; 100; 101] 5)
           [97; 98; 99; 100; 101] [] 2 2).
  - rep_by_eval 0.
  - vm_compute. split; [discriminate|reflexivity].
  - vm_compute. discriminate.
Defined.

(** C9 fails on the code.  A short read does consume the record, but the
    bytes it left behind stay in the slot and later reads return them.
    (1) Write "abcde", read 2 bytes ("ab"), then a write that faults, a
    read, a second write that faults: each faulting write hands the read
    side a permit for a slot that got no record, and the next read of 8
    bytes returns "abcde".  (2) With a second record written and read in
    between so that both cursors are back on the slot of "abcde", one
    write of 2 bytes whose source holds a single readable byte faults,
    and the next read returns 5 bytes ending in "cde".  (3) The first
    half of the property fails too for a reader that waited: it entered
    on a slot whose length field held 1, slept, a writer stored "abcde"
    there, and asked for 3 bytes of the 5 it gets 1. *)
Theorem short_read_bytes_come_back :
  (let s1 := after_write demo_ring [97; 98; 99; 100; 101] 5 in
   exists s2 s6,
     scull_read false s1 8 2 = Returned (2, [97; 98], s2)
     /\ scull_write false s2 [] 2
        = Returned (- EFAULT, after_write s2 [] 2)
     /\ scull_write false (after_read (after_write s2 [] 2) 8 8) [] 2
        = Returned (- EFAULT,
                    after_write (after_read (after_write s2 [] 2) 8 8) [] 2)
     /\ scull_read false
          (after_write (after_read (after_write s2 [] 2) 8 8) [] 2) 8 8
        = Returned (5, [97; 98; 99; 100; 101], s6))
  /\ (let s1 :=
        after_write (after_write demo_ring [97; 98; 99; 100; 101] 5)
          [120] 1 in
      exists s2 s5,
        scull_read false s1 8 2 = Returned (2, [97; 98], s2)
        /\ (head (after_read s2 8 8), end_ (after_read s2 8 8)) = (0, 0)
        /\ scull_write false (after_read s2 8 8) [120] 2
           = Returned (- EFAULT, after_write (after_read s2 8 8) [120] 2)
        /\ scull_read false (after_write (after_read s2 8 8) [120] 2) 8 8
           = Returned (5, [120; 0; 99; 100; 101], s5))
  /\ (let s :=
        after_read
          (after_read
             (after_write (after_write demo_ring [120] 1) [121; 121] 2)
             8 8) 8 8 in
      let s' := after_write s [97; 98; 99; 100; 101] 5 in
      exists fr s'',
        scull_read_entry s = Some fr
        /\ scull_read_body fr false s 8 3 = Blocked
        /\ queue_contents s' = Some [[97; 98; 99; 100; 101]]
        /\ scull_read_body fr false s' 8 3 = Returned (1, [97], s'')).
Proof.
  cbv zeta. split; [|split].
  - do 2 eexists.
    split; [vm_compute; reflexivity|].
    split; [vm_compute; reflexivity|].
    split; vm_compute; reflexivity.
  - do 2 eexists.
    split; [vm_compute; reflexivity|].
    split; [vm_compute; reflexivity|].
    split; vm_compute; reflexivity.
  - do 2 eexists.
    split; [vm_compute; reflexivity|].
    split; [vm_compute; reflexivity|].
    split; vm_compute; reflexivity.
Qed.

(** C10 (foreign commands).  A command whose type field is not the magic
    number, or whose number field exceeds the largest command number,
    gets [-ENOTTY] and the state is handed back as it was; whatever the
    command and argument, the state is untouched; a call that returns a
    non-negative value was given [SCULL_IOCGETELEMSZ]; and
    [SCULL_IOCGETELEMSZ], when it carries the magic number and a number
    within range and its argument passes [access_ok], does succeed: it
    returns [scull_fifo_elemsz]. *)
Theorem ioctl_rejects_foreign (h : scull_h) (limit : Z) (s : scull)
    (cmd arg : Z) :
  (_IOC_TYPE cmd <> u32 (SCULL_IOC_MAGIC h)
   \/ u32 (SCULL_IOC_MAXNR h) < _IOC_NR cmd ->
   scull_ioctl h limit s cmd arg = (- ENOTTY, s))
  /\ snd (scull_ioctl h limit s cmd arg) = s
  /\ (0 <= fst (scull_ioctl h limit s cmd arg) ->
      cmd = u32 (SCULL_IOCGETELEMSZ h))
  /\ (_IOC_TYPE (u32 (SCULL_IOCGETELEMSZ h)) = u32 (SCULL_IOC_MAGIC h) ->
      _IOC_NR (u32 (SCULL_IOCGETELEMSZ h)) <= u32 (SCULL_IOC_MAXNR h) ->
      access_ok limit arg (_IOC_SIZE (u32 (SCULL_IOCGETELEMSZ h))) = true ->
      scull_ioctl h limit s (u32 (SCULL_IOCGETELEMSZ h)) arg
      = (scull_fifo_elemsz s, s)).
Proof.
  split; [|split; [|split]].
  - unfold scull_ioctl. rewrite Z.gtb_ltb. intros [H|H].
    + destruct (Z.eqb_spec (_IOC_TYPE cmd) (u32 (SCULL_IOC_MAGIC h)));
        [contradiction|reflexivity].
    + destruct (Z.eqb_spec (_IOC_TYPE cmd) (u32 (SCULL_IOC_MAGIC h)));
        cbn [negb]; [|reflexivity].
      destruct (Z.ltb_spec (u32 (SCULL_IOC_MAXNR h)) (_IOC_NR cmd));
        [reflexivity|lia].
  - unfold scull_ioctl.
    destruct (negb (_IOC_TYPE cmd =? u32 (SCULL_IOC_MAGIC h)));
      [reflexivity|].
    destruct (_IOC_NR cmd >? u32 (SCULL_IOC_MAXNR h)); [reflexivity|].
    destruct (negb (access_ok limit arg (_IOC_SIZE cmd))); [reflexivity|].
    destruct (cmd =? u32 (SCULL_IOCGETELEMSZ h)); reflexivity.
  - unfold scull_ioctl, ENOTTY, EFAULT.
    destruct (negb (_IOC_TYPE cmd =? u32 (SCULL_IOC_MAGIC h)));
      [cbn [fst]; lia|].
    destruct (_IOC_NR cmd >? u32 (SCULL_IOC_MAXNR h)); [cbn [fst]; lia|].
    destruct (negb (access_ok limit arg (_IOC_SIZE cmd))); [cbn [fst]; lia|].
    destruct (Z.eqb_spec cmd (u32 (SCULL_IOCGETELEMSZ h))) as [E|E];
      [intros _; exact E|cbn [fst]; lia].
  - intros Ht Hn Ha. unfold scull_ioctl.
    rewrite Ht, Z.eqb_refl, Ha, Z.eqb_refl. cbn [negb]. rewrite Z.gtb_ltb.
    destruct (Z.ltb_spec (u32 (SCULL_IOC_MAXNR h))
                (_IOC_NR (u32 (SCULL_IOCGETELEMSZ h)))); [lia|reflexivity].
Qed.

Lemma ioctl_rejects_foreign_witness :
  scull_ioctl ldd_header x86_64_limit demo_ring 27649 0
  = (- ENOTTY, demo_ring)
  /\ scull_ioctl ldd_header x86_64_limit demo_ring 27394 0
     = (- ENOTTY, demo_ring)
  /\ (0 <= fst (scull_ioctl ldd_header x86_64_limit demo_ring 27393 4096) ->
      27393 = u32 (SCULL_IOCGETELEMSZ ldd_header))
  /\ scull_ioctl ldd_header x86_64_limit demo_ring
       (u32 (SCULL_IOCGETELEMSZ ldd_header)) 4096
     = (scull_fifo_elemsz demo_ring, demo_ring).
Proof.
  split; [|split; [|split]].
  - apply (ioctl_rejects_foreign ldd_header x86_64_limit demo_ring 27649 0).
    left. vm_compute. discriminate.
  - apply (ioctl_rejects_foreign ldd_header x86_64_limit demo_ring 27394 0).
    right. vm_compute. reflexivity.
  - apply (ioctl_rejects_foreign ldd_header x86_64_limit demo_ring 27393
             4096).
  - apply (ioctl_rejects_foreign ldd_header x86_64_limit demo_ring 27393
             4096).
    + vm_compute. reflexivity.
    + vm_compute. discriminate.
    + vm_compute. reflexivity.
Defined.

(** C8 as the code has it.  When [SCULL_IOCGETELEMSZ] carries the magic
    number and a number within range, the query returns
    [scull_fifo_elemsz] if the argument word passes [access_ok] for the
    size encoded in the command, and [-EFAULT] otherwise; in both cases
    the state is handed back as it was. *)
Theorem ioctl_getelemsz_guarded (h : scull_h) (limit : Z) (s : scull)
    (arg : Z) :
  _IOC_TYPE (u32 (SCULL_IOCGETELEMSZ h)) = u32 (SCULL_IOC_MAGIC h) ->
  _IOC_NR (u32 (SCULL_IOCGETELEMSZ h)) <= u32 (SCULL_IOC_MAXNR h) ->
  scull_ioctl h limit s (u32 (SCULL_IOCGETELEMSZ h)) arg
  = (if access_ok limit arg (_IOC_SIZE (u32 (SCULL_IOCGETELEMSZ h)))
     then scull_fifo_elemsz s else - EFAULT, s).
Proof.
  intros Ht Hn. unfold scull_ioctl. rewrite Ht, Z.eqb_refl. cbn [negb].
  rewrite Z.gtb_ltb.
  destruct (Z.ltb_spec (u32 (SCULL_IOC_MAXNR h))
              (_IOC_NR (u32 (SCULL_IOCGETELEMSZ h)))); [lia|].
  destruct (access_ok limit arg _); cbn [negb]; [|reflexivity].
  rewrite Z.eqb_refl. reflexivity.
Qed.

Lemma ioctl_getelemsz_guarded_witness :
  scull_ioctl ldd_header x86_64_limit demo_ring
    (u32 (SCULL_IOCGETELEMSZ ldd_header)) 4096
  = (if access_ok x86_64_limit 4096
          (_IOC_SIZE (u32 (SCULL_IOCGETELEMSZ ldd_header)))
     then scull_fifo_elemsz demo_ring else - EFAULT, demo_ring).
Proof.
  apply (ioctl_getelemsz_guarded ldd_header x86_64_limit demo_ring 4096).
  - vm_compute. reflexivity.
  - vm_compute. discriminate.
Defined.

(** C8 as stated fails: with an argument word above the user address
    limit, [SCULL_IOCGETELEMSZ] returns [-EFAULT], not
    [scull_fifo_elemsz]. *)
Lemma ioctl_getelemsz_refused :
  fst (scull_ioctl ldd_header x86_64_limit demo_ring
         (u32 (SCULL_IOCGETELEMSZ ldd_header)) (2 ^ 64 - 1))
  <> scull_fifo_elemsz demo_ring.
Proof. vm_compute. discriminate. Qed.

(** C1 fails on the code.  On a freshly loaded ring of two slots nobody
    holds the mutex and [writer + reader] is the capacity.  A read whose
    wait for a filled slot is interrupted returns [-ERESTARTSYS] with the
    mutex free and [writer + reader] one above the capacity. *)
Theorem read_interrupt_breaks_sum :
  scull_mutex demo_ring = false
  /\ writer demo_ring + reader demo_ring = scull_fifo_size demo_ring
  /\ exists s',
       scull_read true demo_ring 8 8 = Returned (- ERESTARTSYS, [], s')
       /\ scull_mutex s' = false
       /\ scull_fifo_size s' = scull_fifo_size demo_ring
       /\ writer s' + reader s' = scull_fifo_size s' + 1.
Proof.
  split; [reflexivity|]. split; [reflexivity|].
  eexists. split; [vm_compute; reflexivity|]. repeat split.
Qed.

(** C2 fails on the code.  A write whose source cannot be read takes a
    free permit and gives a filled one: it returns [-EFAULT] with
    [writer] one lower than before the call, [reader] one higher and
    [end] unmoved.  A read whose destination cannot be written takes a
    filled permit and gives a free one: it returns [-EFAULT] with
    [reader] one lower than before the call, [writer] one higher and
    [head] unmoved. *)
Theorem fault_releases_other_permit :
  (exists s',
     scull_write false demo_ring [] 2 = Returned (- EFAULT, s')
     /\ writer demo_ring = 2 /\ writer s' = 1
     /\ reader demo_ring = 0 /\ reader s' = 1
     /\ end_ s' = end_ demo_ring)
  /\ (exists out s',
        scull_read false (after_write demo_ring [97; 98] 2) 0 2
        = Returned (- EFAULT, out, s')
        /\ reader (after_write demo_ring [97; 98] 2) = 1 /\ reader s' = 0
        /\ writer (after_write demo_ring [97; 98] 2) = 1 /\ writer s' = 2
        /\ head s' = head (after_write demo_ring [97; 98] 2)).
Proof.
  split.
  - eexists. split; [vm_compute; reflexivity|]. repeat split.
  - eexists. eexists. split; [vm_compute; reflexivity|]. repeat split.
Qed.

(** C3 fails on the code.  Every interrupted call returns
    [-ERESTARTSYS] with both cursors unmoved, but only the write whose
    wait for a free slot is interrupted leaves the counters alone.  A read
    interrupted while waiting for a filled slot raises [writer].  While a
    writer is inside its critical section, a read interrupted in its wait
    for the mutex keeps the filled permit it took and raises [writer], and
    a write interrupted in its wait for the mutex keeps the free permit
    it took and raises [reader]. *)
Theorem interrupt_changes_counters :
  (exists s',
     scull_read true demo_ring 8 8 = Returned (- ERESTARTSYS, [], s')
     /\ (writer demo_ring, reader demo_ring) = (2, 0)
     /\ (writer s', reader s') = (3, 0)
     /\ (head s', end_ s') = (head demo_ring, end_ demo_ring))
  /\ (let s := writer_in_section (after_write demo_ring [97; 98] 2) in
      exists s',
        scull_read true s 8 8 = Returned (- ERESTARTSYS, [], s')
        /\ (writer s, reader s) = (0, 1)
        /\ (writer s', reader s') = (1, 0)
        /\ (head s', end_ s') = (head s, end_ s))
  /\ (let s := writer_in_section demo_ring in
      exists s',
        scull_write true s [97] 1 = Returned (- ERESTARTSYS, s')
        /\ (writer s, reader s) = (1, 0)
        /\ (writer s', reader s') = (0, 1)
        /\ (head s', end_ s') = (head s, end_ s))
  /\ (let s := after_write (after_write demo_ring [97] 1) [98] 1 in
      writer s = 0
      /\ scull_write true s [99] 1 = Returned (- ERESTARTSYS, s)).
Proof.
  split; [|split; [|split]].
  - eexists. split; [vm_compute; reflexivity|]. repeat split.
  - eexists. split; [vm_compute; reflexivity|]. repeat split.
  - eexists. split; [vm_compute; reflexivity|]. repeat split.
  - split; vm_compute; reflexivity.
Qed.

(** C6 fails on the code.  A ring of two slots has carried two records
    and is empty again, so the slot under [head] still holds the length 3
    of the record read from it.  A reader enters and takes its snapshot
    there, then sleeps for a filled slot.  A writer puts the five bytes
    "hello" in that slot.  The reader, now holding the filled permit and
    the mutex, asks for eight bytes: the length field of the head slot is
    5, a read entered now returns "hello", but the sleeping reader uses
    the length it took on entry, returns 3 bytes, "hel", and the record
    is gone. *)
Theorem read_uses_stale_length :
  let s :=
    after_read
      (after_read
         (after_write (after_write demo_ring [97; 98; 99] 3) [100; 101] 2)
         8 8) 8 8 in
  let s' := after_write s [104; 101; 108; 108; 111] 5 in
  exists fr m s1 s2,
    scull_read_entry s = Some fr
    /\ r_dataSize fr = 3
    /\ scull_read_body fr false s 8 8 = Blocked
    /\ scull_message_queue s' = Some m
    /\ load_ssize m (head s') = Some 5
    /\ scull_read false s' 8 8
       = Returned (5, [104; 101; 108; 108; 111], s1)
    /\ scull_read_body fr false s' 8 8
       = Returned (3, [104; 101; 108], s2)
    /\ queue_contents s2 = Some [].
Proof.
  cbv zeta. do 4 eexists.
  split; [vm_compute; reflexivity|].
  split; [reflexivity|].
  split; [vm_compute; reflexivity|].
  split; [vm_compute; reflexivity|].
  split; [vm_compute; reflexivity|].
  split; [vm_compute; reflexivity|].
  split; [vm_compute; reflexivity|].
  vm_compute. reflexivity.
Qed.

(** * Further properties of the driver *)


Lemma Rep_entry (s : scull) (q : list (list byte)) :
  Rep s q ->
  exists sz, scull_read_entry s
             = Some (mkReadFrame (head s + sizeof_ssize_t) sz).
Proof.
  intros [m hi Hp Hmx Hq Hlen Hhi Hhead Hend Hrd Hwr Hpend].
  pose proof (slot_bytes_eq s Hp) as Esl.
  pose proof (ring_bytes_eq s Hp) as Ering.
  destruct Hp as [Hsz Hes].
  unfold scull_read_entry, load_ssize. rewrite Hq.
  rewrite load_bytes_Some; [eexists; reflexivity| | |];
    unfold sizeof_ssize_t; nia.
Qed.

(** X1.  A write on a full quiescent ring stores nothing: with no signal
    pending it sleeps, and with a signal pending it returns
    [-ERESTARTSYS] and leaves the whole state as it was. *)
Theorem full_ring_write_waits (s : scull) (q : list (list byte))
    (src : list byte) (count : Z) :
  Rep s q -> Z.of_nat (length q) = scull_fifo_size s ->
  scull_write false s src count = Blocked
  /\ scull_write true s src count = Returned (- ERESTARTSYS, s).
Proof.
  intros HR Hfull. destruct (Rep_reader _ _ HR) as [_ Hw].
  unfold scull_write, scull_write_body, down_interruptible.
  destruct (Z.ltb_spec 0 (writer s)); [lia|]. split; reflexivity.
Qed.

Lemma full_ring_write_waits_witness :
  scull_write false (after_write (after_write demo_ring [97] 1) [98] 1)
    [99] 1 = Blocked
  /\ scull_write true (after_write (after_write demo_ring [97] 1) [98] 1)
       [99] 1
     = Returned (- ERESTARTSYS,
                 after_write (after_write demo_ring [97] 1) [98] 1).
Proof.
  apply (full_ring_write_waits
           (after_write (after_write demo_ring [97] 1) [98] 1)
           [[97]; [98]] [99] 1).
  - rep_by_eval 0.
  - vm_compute. reflexivity.
Defined.

(** X2.  A read on an empty quiescent ring delivers nothing: with no
    signal pending it sleeps; with a signal pending it returns
    [-ERESTARTSYS] and changes nothing but [writer], which it raises by
    one. *)
Theorem empty_ring_read_waits (s : scull) (room count : Z) :
  Rep s [] ->
  scull_read false s room count = Blocked
  /\ scull_read true s room count
     = Returned (- ERESTARTSYS, [], set_writer (writer s + 1) s).
Proof.
  intros HR. destruct (Rep_reader _ _ HR) as [Hr _]. cbn [length] in Hr.
  destruct (Rep_entry _ _ HR) as (sz & E).
  pose proof (Rep_params _ _ HR) as [Hsz _].
  destruct (Rep_reader _ _ HR) as [_ Hw]. cbn [length] in Hw.
  unfold scull_read. rewrite E.
  unfold scull_read_body, down_interruptible.
  destruct (Z.ltb_spec 0 (reader s)); [lia|].
  rewrite up_small by lia. split; reflexivity.
Qed.

Lemma empty_ring_read_waits_witness :
  scull_read false demo_ring 8 8 = Blocked
  /\ scull_read true demo_ring 8 8
     = Returned (- ERESTARTSYS, [],
                 set_writer (writer demo_ring + 1) demo_ring).
Proof.
  apply (empty_ring_read_waits demo_ring 8 8). rep_by_eval 0.
Defined.

(** X3.  On a quiescent ring with a free slot, a write whose source holds
    the bytes it takes returns [min count scull_fifo_elemsz], appends
    exactly those bytes as the youngest record, moves [end] one slot on
    around the ring, leaves [head] alone, and passes one permit from
    [writer] to [reader]; the ring is quiescent again. *)
Theorem write_enqueues (signal : bool) (s : scull) (q : list (list byte))
    (src : list byte) (count : Z) :
  Rep s q -> Z.of_nat (length q) < scull_fifo_size s ->
  0 <= count < 2 ^ 64 ->
  Z.min count (scull_fifo_elemsz s) <= Z.of_nat (length src) ->
  exists s',
    scull_write signal s src count
    = Returned (Z.min count (scull_fifo_elemsz s), s')
    /\ Rep s' (q ++ [accepted (scull_fifo_elemsz s) src count])
    /\ advance s (end_ s) = Some (end_ s')
    /\ head s' = head s
    /\ reader s' = reader s + 1
    /\ writer s' = writer s - 1.
Proof.
  intros HR Hfree Hc Hsrc.
  destruct (write_serial signal s q src count HR Hfree Hc Hsrc)
    as (s' & E & HR' & Ha & Hh & Hr & Hw & _).
  exists s'. auto 10.
Qed.

Lemma write_enqueues_witness :
  exists s',
    scull_write false (after_write demo_ring [97; 98] 2) [99; 100; 101] 3
    = Returned (3, s')
    /\ Rep s' ([[97; 98]] ++ [[99; 100; 101]])
    /\ advance (after_write demo_ring [97; 98] 2)
         (end_ (after_write demo_ring [97; 98] 2)) = Some (end_ s')
    /\ head s' = head (after_write demo_ring [97; 98] 2)
    /\ reader s' = reader (after_write demo_ring [97; 98] 2) + 1
    /\ writer s' = writer (after_write demo_ring [97; 98] 2) - 1.
Proof.
  apply (write_enqueues false (after_write demo_ring [97; 98] 2)
           [[97; 98]] [99; 100; 101] 3).
  - rep_by_eval 0.
  - vm_compute. reflexivity.
  - vm_compute. split; [discriminate|reflexivity].
  - vm_compute. discriminate.
Defined.

(** X4.  On a quiescent ring holding at least one record, a read with
    room for what it takes returns [min count L] where [L] is the length
    of the oldest record, delivers that many of its first bytes, moves
    [head] one slot on around the ring, leaves [end] alone, and passes one
    permit from [reader] to [writer]; the ring is quiescent again and
    holds the younger records. *)
Theorem read_dequeues (signal : bool) (s : scull) (r : list byte)
    (q : list (list byte)) (room count : Z) :
  Rep s (r :: q) -> 0 <= count < 2 ^ 64 ->
  Z.min count (Z.of_nat (length r)) <= room ->
  exists s',
    scull_read signal s room count
    = Returned (Z.min count (Z.of_nat (length r)),
                firstn (Z.to_nat (Z.min count (Z.of_nat (length r)))) r, s')
    /\ Rep s' q
    /\ advance s (head s) = Some (head s')
    /\ end_ s' = end_ s
    /\ reader s' = reader s - 1
    /\ writer s' = writer s + 1.
Proof.
  intros HR Hc Hroom.
  destruct (read_serial signal s r q room count HR Hc Hroom)
    as (s' & E & HR' & Ha & He & Hr & Hw & _).
  exists s'. auto 10.
Qed.

Lemma read_dequeues_witness :
  exists s',
    scull_read false (after_write demo_ring [97; 98; 99] 3) 8 8
    = Returned (Z.min 8 (Z.of_nat (length [97; 98; 99])),
                firstn (Z.to_nat (Z.min 8 (Z.of_nat (length [97; 98; 99]))))
                  [97; 98; 99], s')
    /\ Rep s' []
    /\ advance (after_write demo_ring [97; 98; 99] 3)
         (head (after_write demo_ring [97; 98; 99] 3)) = Some (head s')
    /\ end_ s' = end_ (after_write demo_ring [97; 98; 99] 3)
    /\ reader s' = reader (after_write demo_ring [97; 98; 99] 3) - 1
    /\ writer s' = writer (after_write demo_ring [97; 98; 99] 3) + 1.
Proof.
  apply (read_dequeues false (after_write demo_ring [97; 98; 99] 3)
           [97; 98; 99] [] 8 8).
  - rep_by_eval 0.
  - vm_compute. split; [discriminate|reflexivity].
  - vm_compute. discriminate.
Defined.

(** X5.  On a quiescent ring with a free slot, a write whose source
    holds fewer bytes than the write takes returns [-EFAULT] with both
    cursors where they were, but [writer] is one lower and [reader] one
    higher than before the call: the reader side is handed a permit for a
    slot that received no record. *)
Theorem write_fault_passes_permit (signal : bool) (s : scull)
    (q : list (list byte)) (src : list byte) (count : Z) :
  Rep s q -> Z.of_nat (length q) < scull_fifo_size s ->
  0 <= count < 2 ^ 64 ->
  Z.of_nat (length src) < Z.min count (scull_fifo_elemsz s) ->
  exists s',
    scull_write signal s src count = Returned (- EFAULT, s')
    /\ writer s' = writer s - 1 /\ reader s' = reader s + 1
    /\ end_ s' = end_ s /\ head s' = head s
    /\ scull_mutex s' = false
    /\ reader s' = Z.of_nat (length q) + 1.
Proof.
  intros HR Hfree Hc Hsrc.
  destruct (Rep_reader _ _ HR) as [Hr _].
  destruct (write_fault signal s q src count HR Hfree Hc Hsrc)
    as (s' & E & Hw & Hr' & He & Hh).
  exists s'. repeat split; try assumption; try lia.
  destruct HR as [m hi Hp Hmx _ _ _ _ _ _ _ _].
  revert E. unfold scull_write, scull_write_entry, scull_write_body,
    down_interruptible, mutex_lock_interruptible.
  destruct (0 <? writer s); [|destruct signal; intros H; inversion H; subst;
                              assumption].
  proj. rewrite Hmx. proj.
  destruct (scull_message_queue s); [|discriminate].
  destruct (copy_from_user _ _ _ _) as [[m1 [|p|p]]|]; try discriminate.
  - destruct (store_ssize _ _ _); [|discriminate].
    destruct (advance _ _); [|discriminate].
    intros H; inversion H; subst; reflexivity.
  - intros H; inversion H; subst; reflexivity.
  - intros H; inversion H; subst; reflexivity.
Qed.

Lemma write_fault_passes_permit_witness :
  exists s',
    scull_write false demo_ring [97] 4 = Returned (- EFAULT, s')
    /\ writer s' = writer demo_ring - 1 /\ reader s' = reader demo_ring + 1
    /\ end_ s' = end_ demo_ring /\ head s' = head demo_ring
    /\ scull_mutex s' = false
    /\ reader s' = Z.of_nat (length (@nil (list byte))) + 1.
Proof.
  apply (write_fault_passes_permit false demo_ring [] [97] 4).
  - rep_by_eval 0.
  - vm_compute. reflexivity.
  - vm_compute. split; [discriminate|reflexivity].
  - vm_compute. reflexivity.
Defined.

(** X6.  On a quiescent ring holding at least one record, a read whose
    destination has room for fewer bytes than the read takes returns
    [-EFAULT] after delivering the bytes there was room for; the block
    and both cursors are as before, so the record is still under [head],
    but [reader] is one lower and [writer] one higher than before the
    call. *)
Theorem read_fault_passes_permit (signal : bool) (s : scull) (r : list byte)
    (q : list (list byte)) (room count : Z) :
  Rep s (r :: q) -> 0 <= count < 2 ^ 64 ->
  0 <= room < Z.min count (Z.of_nat (length r)) ->
  exists s',
    scull_read signal s room count
    = Returned (- EFAULT, firstn (Z.to_nat room) r, s')
    /\ reader s' = reader s - 1 /\ writer s' = writer s + 1
    /\ head s' = head s /\ end_ s' = end_ s
    /\ scull_message_queue s' = scull_message_queue s
    /\ scull_mutex s' = false.
Proof.
  intros HR Hc Hroom. pose proof (Rep_head_length _ _ _ HR) as Hle.
  destruct HR as [m hi Hp Hmx Hq Hlen Hhi Hhead Hend Hrd Hwr Hpend].
  pose proof (pending_length _ _ _ _ _ Hpend) as HL. simpl in HL.
  replace (Z.to_nat (reader s)) with (S (Z.to_nat (reader s - 1))) in Hpend
    by lia.
  cbn [pending] in Hpend.
  destruct (slot_record s m (head s)) as [r0|] eqn:Hrec; [|discriminate].
  destruct (advance s (head s)); [|discriminate].
  destruct (pending s m z (Z.to_nat (reader s - 1))); [|discriminate].
  injection Hpend as -> ->.
  apply slot_record_inv in Hrec.
  destruct Hrec as (len & Hld & Hlen' & Hpay & Hrl).
  set (n := Z.min count (Z.of_nat (length r))) in *.
  pose proof Hp as [Hsz Hes].
  unfold scull_read, scull_read_entry. rewrite Hq, Hld.
  unfold scull_read_body, down_interruptible.
  destruct (Z.ltb_spec 0 (reader s)); [|lia].
  proj. unfold mutex_lock_interruptible. rewrite Hmx. proj. rewrite Hq.
  rewrite (u64_small len) by lia.
  assert (Hcnt : (if count >? len then len else count) = n).
  { rewrite Z.gtb_ltb. destruct (Z.ltb_spec len count); lia. }
  rewrite Hcnt. unfold copy_to_user.
  replace (Z.min n (Z.max 0 room)) with room by lia.
  rewrite (load_bytes_prefix _ _ _ room _ Hpay) by lia.
  destruct (n - room) as [|p|p] eqn:Enk; try lia.
  eexists. split; [reflexivity|]. proj. rewrite ?up_small by lia.
  repeat split; try lia. exact Hq.
Qed.

Lemma read_fault_passes_permit_witness :
  exists s',
    scull_read false (after_write demo_ring [97; 98; 99] 3) 1 3
    = Returned (- EFAULT, firstn (Z.to_nat 1) [97; 98; 99], s')
    /\ reader s' = reader (after_write demo_ring [97; 98; 99] 3) - 1
    /\ writer s' = writer (after_write demo_ring [97; 98; 99] 3) + 1
    /\ head s' = head (after_write demo_ring [97; 98; 99] 3)
    /\ end_ s' = end_ (after_write demo_ring [97; 98; 99] 3)
    /\ scull_message_queue s'
       = scull_message_queue (after_write demo_ring [97; 98; 99] 3)
    /\ scull_mutex s' = false.
Proof.
  apply (read_fault_passes_permit false
           (after_write demo_ring [97; 98; 99] 3) [97; 98; 99] [] 1 3).
  - rep_by_eval 0.
  - vm_compute. split; [discriminate|reflexivity].
  - vm_compute. split; [discriminate|reflexivity].
Defined.

(** X7.  Whatever the state, the source and the count, a write that
    returns has not moved [head], has not changed the module parameters
    or the registration of the device, and leaves the mutex as it found
    it; and when [reader] is below the largest [unsigned int], so that
    [up(&reader)] does not wrap, it leaves [writer + reader] as it found
    it. *)
Theorem write_keeps (signal : bool) (s s' : scull) (src : list byte)
    (count ret : Z) :
  scull_write signal s src count = Returned (ret, s') ->
  head s' = head s
  /\ scull_fifo_size s' = scull_fifo_size s
  /\ scull_fifo_elemsz s' = scull_fifo_elemsz s
  /\ scull_major s' = scull_major s
  /\ cdev_live s' = cdev_live s /\ chrdev_region s' = chrdev_region s
  /\ scull_mutex s' = scull_mutex s
  /\ (0 <= reader s < 2 ^ 32 - 1 ->
      writer s' + reader s' = writer s + reader s).
Proof.
  unfold scull_write, scull_write_entry, scull_write_body,
    down_interruptible, mutex_lock_interruptible, mutex_unlock.
  destruct (0 <? writer s);
    [|destruct signal; intros H; inversion H; subst; repeat split].
  proj. destruct (scull_mutex s) eqn:Hm.
  { destruct signal; intros H; inversion H; subst; proj;
      repeat split; try assumption; intros Hr; rewrite up_small by lia; lia. }
  proj. destruct (scull_message_queue s) as [m|]; [|discriminate].
  destruct (copy_from_user _ _ _ _) as [[m1 [|p|p]]|]; try discriminate.
  - destruct (store_ssize _ _ _) as [m2|]; [|discriminate].
    destruct (advance _ _) as [e|]; [|discriminate].
    intros H; inversion H; subst; proj; repeat split; try assumption;
      intros Hr; rewrite up_small by lia; lia.
  - intros H; inversion H; subst; proj; repeat split; try assumption;
      intros Hr; rewrite up_small by lia; lia.
  - intros H; inversion H; subst; proj; repeat split; try assumption;
      intros Hr; rewrite up_small by lia; lia.
Qed.

Lemma write_keeps_witness :
  head (after_write demo_ring [97] 1) = head demo_ring
  /\ writer (after_write demo_ring [97] 1)
     + reader (after_write demo_ring [97] 1)
     = writer demo_ring + reader demo_ring.
Proof.
  assert (E : scull_write false demo_ring [97] 1
              = Returned (1, after_write demo_ring [97] 1))
    by (vm_compute; reflexivity).
  split.
  - apply (write_keeps false demo_ring _ [97] 1 1 E).
  - apply (write_keeps false demo_ring _ [97] 1 1 E).
    vm_compute. split; [discriminate|reflexivity].
Defined.

(** X8.  Whatever the state, the room and the count, a read that returns
    has not written to the block, has not moved [end], has not changed
    the module parameters or the registration of the device, and leaves
    the mutex as it found it. *)
Theorem read_keeps (signal : bool) (s s' : scull) (room count ret : Z)
    (out : list byte) :
  scull_read signal s room count = Returned (ret, out, s') ->
  scull_message_queue s' = scull_message_queue s
  /\ end_ s' = end_ s
  /\ scull_fifo_size s' = scull_fifo_size s
  /\ scull_fifo_elemsz s' = scull_fifo_elemsz s
  /\ scull_major s' = scull_major s
  /\ cdev_live s' = cdev_live s /\ chrdev_region s' = chrdev_region s
  /\ scull_mutex s' = scull_mutex s.
Proof.
  unfold scull_read. destruct (scull_read_entry s) as [fr|]; [|discriminate].
  unfold scull_read_body, down_interruptible, mutex_lock_interruptible,
    mutex_unlock, up.
  destruct (0 <? reader s);
    [|destruct signal; intros H; inversion H; subst; repeat split].
  proj. destruct (scull_mutex s) eqn:Hm.
  { destruct signal; intros H; inversion H; subst; proj;
      repeat split; assumption. }
  proj. destruct (scull_message_queue s) as [m|] eqn:Hq; [|discriminate].
  destruct (copy_to_user _ _ _ _) as [[o [|p|p]]|]; try discriminate.
  - destruct (advance _ _) as [e|]; [|discriminate].
    intros H; inversion H; subst; proj; repeat split; assumption.
  - intros H; inversion H; subst; proj; repeat split; assumption.
  - intros H; inversion H; subst; proj; repeat split; assumption.
Qed.

Lemma read_keeps_witness :
  scull_message_queue
    (after_read (after_write demo_ring [97] 1) 8 8)
  = scull_message_queue (after_write demo_ring [97] 1)
  /\ end_ (after_read (after_write demo_ring [97] 1) 8 8)
     = end_ (after_write demo_ring [97] 1).
Proof.
  assert (E : scull_read false (after_write demo_ring [97] 1) 8 8
              = Returned (1, [97],
                          after_read (after_write demo_ring [97] 1) 8 8))
    by (vm_compute; reflexivity).
  split; apply (read_keeps false _ _ 8 8 1 [97] E).
Defined.

(** X9.  Whatever the state, a read asked for [count] bytes
    ([count] below [2^63]) that returns gives [-ERESTARTSYS], [-EFAULT]
    or a byte count between 0 and [count]; a byte count is the number of
    bytes delivered, and an error never comes with more than [count]
    bytes delivered. *)
Theorem read_return_range (signal : bool) (s s' : scull)
    (room count ret : Z) (out : list byte) :
  0 <= count < 2 ^ 63 ->
  scull_read signal s room count = Returned (ret, out, s') ->
  (ret = - ERESTARTSYS /\ out = [])
  \/ (ret = - EFAULT /\ Z.of_nat (length out) < count)
  \/ (0 <= ret <= count /\ Z.of_nat (length out) = ret).
Proof.
  intros Hc.
  unfold scull_read. destruct (scull_read_entry s) as [fr|]; [|discriminate].
  unfold scull_read_body, down_interruptible, mutex_lock_interruptible.
  destruct (0 <? reader s);
    [|destruct signal; intros H; inversion H; subst; auto].
  proj. destruct (scull_mutex s).
  { destruct signal; intros H; inversion H; subst; auto. }
  proj. destruct (scull_message_queue s) as [m|]; [|discriminate].
  set (n := if count >? u64 (r_dataSize fr) then u64 (r_dataSize fr)
            else count).
  assert (Hn : 0 <= n <= count).
  { unfold n. rewrite Z.gtb_ltb.
    pose proof (Z.mod_pos_bound (r_dataSize fr) (2 ^ 64)) as B.
    unfold u64.
    destruct (Z.ltb_spec (r_dataSize fr mod 2 ^ 64) count); lia. }
  unfold copy_to_user.
  destruct (load_bytes m (r_dataPtr fr) (Z.min n (Z.max 0 room)))
    as [bs|] eqn:El; [|discriminate].
  apply load_bytes_inv in El. destruct El as (_ & Hk & _ & _ & Hlen).
  destruct (n - Z.min n (Z.max 0 room)) as [|p|p] eqn:Ed.
  - destruct (advance _ _) as [h|]; [|discriminate].
    intros H; inversion H; subst. right. right.
    rewrite s64_small by lia. lia.
  - intros H; inversion H; subst. right. left. split; [reflexivity|lia].
  - intros H; inversion H; subst. right. left. split; [reflexivity|lia].
Qed.

Lemma read_return_range_witness :
  (2 = - ERESTARTSYS /\ [97; 98] = [])
  \/ (2 = - EFAULT /\ Z.of_nat (length [97; 98]) < 2)
  \/ (0 <= 2 <= 2 /\ Z.of_nat (length [97; 98]) = 2).
Proof.
  apply (read_return_range false (after_write demo_ring [97; 98; 99] 3)
           (after_read (after_write demo_ring [97; 98; 99] 3) 2 2)
           2 2 2 [97; 98]).
  - vm_compute. split; [discriminate|reflexivity].
  - vm_compute. reflexivity.
Defined.

(** X10.  With [scull_fifo_elemsz] a non-negative [int], a write asked
    for [count] bytes that returns gives [-ERESTARTSYS], [-EFAULT] or
    exactly [min count scull_fifo_elemsz]: it never reports more bytes
    than a slot holds. *)
Theorem write_return_range (signal : bool) (s s' : scull)
    (src : list byte) (count ret : Z) :
  0 <= scull_fifo_elemsz s < 2 ^ 31 -> 0 <= count < 2 ^ 64 ->
  scull_write signal s src count = Returned (ret, s') ->
  ret = - ERESTARTSYS \/ ret = - EFAULT
  \/ ret = Z.min count (scull_fifo_elemsz s).
Proof.
  intros He Hc.
  unfold scull_write, scull_write_entry, scull_write_body,
    down_interruptible, mutex_lock_interruptible.
  destruct (0 <? writer s);
    [|destruct signal; intros H; inversion H; subst; auto].
  proj. destruct (scull_mutex s).
  { destruct signal; intros H; inversion H; subst; auto. }
  proj. destruct (scull_message_queue s) as [m|]; [|discriminate].
  rewrite (u64_small (scull_fifo_elemsz s)) by lia.
  assert (Hcnt : (if count >? scull_fifo_elemsz s
                  then scull_fifo_elemsz s else count)
                 = Z.min count (scull_fifo_elemsz s)).
  { rewrite Z.gtb_ltb. destruct (Z.ltb_spec (scull_fifo_elemsz s) count); lia. }
  rewrite Hcnt.
  destruct (copy_from_user _ _ _ _) as [[m1 [|p|p]]|]; try discriminate.
  - destruct (store_ssize _ _ _) as [m2|]; [|discriminate].
    destruct (advance _ _) as [e|]; [|discriminate].
    intros H; inversion H; subst. right. right. apply s64_small. lia.
  - intros H; inversion H; subst. right. left. reflexivity.
  - intros H; inversion H; subst. right. left. reflexivity.
Qed.

Lemma write_return_range_witness :
  8 = - ERESTARTSYS \/ 8 = - EFAULT
  \/ 8 = Z.min 11 (scull_fifo_elemsz demo_ring).
Proof.
  apply (write_return_range false demo_ring
           (after_write demo_ring [1; 2; 3; 4; 5; 6; 7; 8; 9; 10; 11] 11)
           [1; 2; 3; 4; 5; 6; 7; 8; 9; 10; 11] 11 8).
  - vm_compute. split; [discriminate|reflexivity].
  - vm_compute. split; [discriminate|reflexivity].
  - vm_compute. reflexivity.
Defined.

Lemma read_room_clamped (signal : bool) (s : scull) (room count : Z) :
  scull_read signal s room count = scull_read signal s (Z.max 0 room) count.
Proof.
  unfold scull_read, scull_read_body, copy_to_user.
  rewrite (Z.max_r 0 (Z.max 0 room)) by lia. reflexivity.
Qed.

(** X11.  On a quiescent ring a call that does not have to sleep runs
    from entry to return, for every source, room and [size_t] count: a
    write that finds a free slot or has a signal pending returns, and a
    read that finds a pending record or has a signal pending returns.  On
    the way there is no access outside the block and no division by
    zero.  A call that sleeps and is woken later is not covered. *)
Theorem quiescent_calls_return (signal : bool) (s : scull)
    (q : list (list byte)) (src : list byte) (room count : Z) :
  Rep s q -> 0 <= count < 2 ^ 64 ->
  (Z.of_nat (length q) < scull_fifo_size s \/ signal = true ->
   exists ret s', scull_write signal s src count = Returned (ret, s'))
  /\ (q <> [] \/ signal = true ->
      exists ret out s',
        scull_read signal s room count = Returned (ret, out, s')).
Proof.
  intros HR Hc. pose proof (Rep_params _ _ HR) as [Hsz Hes].
  destruct (Rep_reader _ _ HR) as [Hr Hw]. split.
  - intros Hrun.
    destruct (Z_lt_ge_dec (Z.of_nat (length q)) (scull_fifo_size s)) as [Hf|Hf].
    + destruct (Z_le_gt_dec (Z.min count (scull_fifo_elemsz s))
                  (Z.of_nat (length src))) as [Hs|Hs].
      * destruct (write_serial signal s q src count HR Hf Hc Hs)
          as (s' & E & _). rewrite E. eauto.
      * destruct (write_fault signal s q src count HR Hf Hc)
          as (s' & E & _); [lia|]. rewrite E. eauto.
    + destruct Hrun as [Hrun | ->]; [lia|].
      unfold scull_write, scull_write_body, down_interruptible.
      destruct (Z.ltb_spec 0 (writer s)); [lia|]. eauto.
  - intros Hrun. rewrite read_room_clamped.
    destruct q as [|r q].
    + destruct Hrun as [Hrun | ->]; [congruence|].
      destruct (Rep_entry _ _ HR) as (sz & E).
      unfold scull_read. rewrite E.
      unfold scull_read_body, down_interruptible.
      cbn [length] in Hr.
      destruct (Z.ltb_spec 0 (reader s)); [lia|]. eauto.
    + destruct (Z_le_gt_dec (Z.min count (Z.of_nat (length r)))
                  (Z.max 0 room)) as [Hs|Hs].
      * destruct (read_serial signal s r q (Z.max 0 room) count HR Hc Hs)
          as (s' & E & _). rewrite E. eauto.
      * destruct (read_fault signal s r q (Z.max 0 room) count HR Hc)
          as (out & s' & E & _); [lia|]. rewrite E. eauto.
Qed.

Lemma quiescent_calls_return_witness :
  (exists ret s',
     scull_write true demo_ring [1; 2; 3] (2 ^ 64 - 1) = Returned (ret, s'))
  /\ (exists ret out s',
        scull_read true demo_ring (-5) (2 ^ 64 - 1)
        = Returned (ret, out, s')).
Proof.
  split.
  - apply (quiescent_calls_return true demo_ring [] [1; 2; 3] (-5)
             (2 ^ 64 - 1)).
    + rep_by_eval 0.
    + vm_compute. split; [discriminate|reflexivity].
    + left. vm_compute. reflexivity.
  - apply (quiescent_calls_return true demo_ring [] [1; 2; 3] (-5)
             (2 ^ 64 - 1)).
    + rep_by_eval 0.
    + vm_compute. split; [discriminate|reflexivity].
    + right. reflexivity.
Defined.

(** A serial-feasible schedule run on a quiescent ring: the run ends, the
    parameters are as before, and the ring is quiescent and holds the
    records written and not yet read. *)
Lemma run_feasible_rep (es sz : Z) (ops : list op) :
  forall (s : scull) (q : list (list byte)),
    scull_fifo_elemsz s = es -> scull_fifo_size s = sz -> Rep s q ->
    feasible es sz ops (map (fun r => Z.of_nat (length r)) q) = true ->
    exists outs s',
      run ops s = Some (outs, s')
      /\ scull_fifo_elemsz s' = es /\ scull_fifo_size s' = sz
      /\ Rep s' (skipn (reads ops) (q ++ writes es ops)).
Proof.
  induction ops as [|[src count|room count] rest IH];
    intros s0 q0 Ees Esz HR0 Hf0.
  - exists [], s0. cbn [run reads writes skipn]. rewrite app_nil_r. auto.
  - subst es sz. cbn [feasible] in Hf0. rewrite !andb_true_iff in Hf0.
    destruct Hf0 as ((((Hfull & Hc0) & Hc1) & Hsrc) & Hrest).
    rewrite length_map in Hfull.
    apply Z.ltb_lt in Hfull, Hc1. apply Z.leb_le in Hc0, Hsrc.
    pose proof (Rep_params _ _ HR0) as [Hsz0 Hes0].
    destruct (write_serial false s0 q0 src count HR0) as
        (s1 & Ew & HR1 & _ & _ & _ & _ & Ees1 & Esz1); try lia.
    cbn [run reads writes]. rewrite Ew.
    destruct (Z.leb_spec 0 (Z.min count (scull_fifo_elemsz s0))); [|lia].
    destruct (IH s1 (q0 ++ [accepted (scull_fifo_elemsz s0) src count]))
      as (outs & s2 & E & Ees2 & Esz2 & HR2); try congruence.
    + rewrite map_app. cbn [map]. unfold accepted.
      rewrite length_firstn.
      replace (Z.of_nat (Nat.min (Z.to_nat (Z.min count
                 (scull_fifo_elemsz s0))) (length src)))
        with (Z.min count (scull_fifo_elemsz s0)) by lia.
      exact Hrest.
    + exists outs, s2. rewrite <- app_assoc in HR2. auto.
  - subst es sz. cbn [feasible] in Hf0.
    destruct q0 as [|r q0]; [discriminate|].
    cbn [map] in Hf0. rewrite !andb_true_iff in Hf0.
    destruct Hf0 as (((Hlen & Hc1) & Hroom) & Hrest).
    apply Z.ltb_lt in Hc1. apply Z.leb_le in Hlen, Hroom.
    destruct (read_serial false s0 r q0 room count HR0) as
        (s1 & Er & HR1 & _ & _ & _ & _ & Ees1 & Esz1); try lia.
    cbn [run reads writes]. rewrite Er.
    replace (Z.min count (Z.of_nat (length r))) with (Z.of_nat (length r))
      by lia.
    destruct (Z.leb_spec 0 (Z.of_nat (length r))); [|lia].
    destruct (IH s1 q0) as (outs & s2 & E & Ees2 & Esz2 & HR2);
      try congruence.
    rewrite E. exists (firstn (Z.to_nat (Z.of_nat (length r))) r :: outs), s2.
    cbn [app skipn]. auto.
Qed.

(** X12.  A serial-feasible schedule run on a quiescent ring leaves a
    quiescent ring: it holds the records written and not yet read, oldest
    first, [reader] counts them, [writer + reader] is the number of
    slots, the mutex is free, and both cursors are slot-aligned offsets
    inside the block. *)
Theorem serial_run_keeps_ring (s : scull) (q : list (list byte))
    (ops : list op) :
  Rep s q ->
  feasible (scull_fifo_elemsz s) (scull_fifo_size s) ops
    (map (fun r => Z.of_nat (length r)) q) = true ->
  exists outs s',
    run ops s = Some (outs, s')
    /\ queue_contents s'
       = Some (skipn (reads ops) (q ++ writes (scull_fifo_elemsz s) ops))
    /\ reader s'
       = Z.of_nat (length (skipn (reads ops)
                             (q ++ writes (scull_fifo_elemsz s) ops)))
    /\ writer s' + reader s' = scull_fifo_size s
    /\ scull_mutex s' = false
    /\ 0 <= head s' < ring_bytes s /\ head s' mod slot_bytes s = 0
    /\ 0 <= end_ s' < ring_bytes s /\ end_ s' mod slot_bytes s = 0.
Proof.
  intros HR Hf.
  destruct (run_feasible_rep _ _ ops s q eq_refl eq_refl HR Hf)
    as (outs & s' & E & Ees & Esz & HR').
  exists outs, s'. split; [exact E|].
  split; [apply Rep_contents; exact HR'|].
  destruct (Rep_reader _ _ HR') as [Hr Hw].
  split; [exact Hr|].
  rewrite <- (slot_bytes_ext s' s Ees), <- (ring_bytes_ext s' s Ees Esz).
  destruct HR' as [m hi Hp Hmx Hq Hlen Hhi Hhead Hend Hrd Hwr Hpend].
  pose proof (slot_bytes_eq s' Hp) as Esl.
  pose proof (ring_bytes_eq s' Hp) as Ering.
  destruct Hp as [Hsz Hes].
  assert (Ht : 0 <= (hi + reader s') mod scull_fifo_size s'
               < scull_fifo_size s') by (apply Z.mod_pos_bound; lia).
  split; [lia|]. split; [exact Hmx|].
  rewrite Hhead, Hend, Ering, Esl.
  rewrite !(Z.mul_comm (8 + scull_fifo_elemsz s')), !Z.mod_mul by lia.
  repeat split; nia.
Qed.

Lemma serial_run_keeps_ring_witness :
  exists outs s',
    run [DoWrite [97] 1; DoWrite [98; 99] 2; DoRead 8 8; DoWrite [100] 1]
      demo_ring = Some (outs, s')
    /\ queue_contents s' = Some [[98; 99]; [100]]
    /\ reader s' = 2
    /\ writer s' + reader s' = scull_fifo_size demo_ring
    /\ scull_mutex s' = false
    /\ 0 <= head s' < ring_bytes demo_ring
    /\ head s' mod slot_bytes demo_ring = 0
    /\ 0 <= end_ s' < ring_bytes demo_ring
    /\ end_ s' mod slot_bytes demo_ring = 0.
Proof.
  apply (serial_run_keeps_ring demo_ring []
           [DoWrite [97] 1; DoWrite [98; 99] 2; DoRead 8 8; DoWrite [100] 1]).
  - rep_by_eval 0.
  - vm_compute. reflexivity.
Defined.

(** X13.  Loading is all or nothing.  From the module image as the loader
    leaves it (no block, no character device, no device numbers),
    [scull_init_module] either returns 0 with the device numbers
    registered, the character device live and the block allocated, or
    returns the error of the step that failed (the registration result,
    the [cdev_add] result, [-ENOMEM]) with no block, no live character
    device and no registered device numbers, and with the semaphores and
    cursors untouched. *)
Theorem init_all_or_nothing (k : kernel) (s : scull) :
  scull_message_queue s = None -> cdev_live s = false ->
  chrdev_region s = false ->
  let ret := fst (scull_init_module k s) in
  let s' := snd (scull_init_module k s) in
  (ret = 0 /\ 0 <= region_result k /\ cdev_add_result k = 0
   /\ kmalloc_ok k = true
   /\ chrdev_region s' = true /\ cdev_live s' = true
   /\ scull_message_queue s' <> None)
  \/ ((ret = region_result k /\ region_result k < 0
       \/ ret = cdev_add_result k /\ 0 <= region_result k
          /\ cdev_add_result k <> 0
       \/ ret = - ENOMEM /\ 0 <= region_result k /\ cdev_add_result k = 0
          /\ kmalloc_ok k = false)
      /\ ret <> 0
      /\ chrdev_region s' = false /\ cdev_live s' = false
      /\ scull_message_queue s' = None
      /\ writer s' = writer s /\ reader s' = reader s
      /\ head s' = head s /\ end_ s' = end_ s).
Proof.
  intros Hq Hc Hr. cbv zeta.
  unfold scull_init_module, kmalloc, scull_cleanup_module, ENOMEM.
  destruct (Z.ltb_spec (region_result k) 0) as [Hreg|Hreg].
  { right. destruct (negb (scull_major s =? 0)); cbn [fst snd]; proj;
      repeat split; auto; lia. }
  destruct (Z.eqb_spec (cdev_add_result k) 0) as [Hadd|Hadd]; cbn [negb].
  2:{ right. destruct (negb (scull_major s =? 0)); cbn [fst snd]; proj;
        repeat split; auto. }
  destruct (kmalloc_ok k) eqn:Hk.
  - left. destruct (negb (scull_major s =? 0)); proj; cbn [fst snd]; proj;
      repeat split; auto; discriminate.
  - right. destruct (negb (scull_major s =? 0)); proj; cbn [fst snd]; proj;
      (split; [right; right; auto|]); repeat split; auto; lia.
Qed.

Lemma init_all_or_nothing_witness :
  let k := mkKernel 0 240 (-16) true (fun _ => 0) in
  let ret := fst (scull_init_module k (unloaded 0 8 2)) in
  let s' := snd (scull_init_module k (unloaded 0 8 2)) in
  (ret = 0 /\ 0 <= region_result k /\ cdev_add_result k = 0
   /\ kmalloc_ok k = true
   /\ chrdev_region s' = true /\ cdev_live s' = true
   /\ scull_message_queue s' <> None)
  \/ ((ret = region_result k /\ region_result k < 0
       \/ ret = cdev_add_result k /\ 0 <= region_result k
          /\ cdev_add_result k <> 0
       \/ ret = - ENOMEM /\ 0 <= region_result k /\ cdev_add_result k = 0
          /\ kmalloc_ok k = false)
      /\ ret <> 0
      /\ chrdev_region s' = false /\ cdev_live s' = false
      /\ scull_message_queue s' = None
      /\ writer s' = writer (unloaded 0 8 2)
      /\ reader s' = reader (unloaded 0 8 2)
      /\ head s' = head (unloaded 0 8 2)
      /\ end_ s' = end_ (unloaded 0 8 2)).
Proof.
  apply (init_all_or_nothing (mkKernel 0 240 (-16) true (fun _ => 0))
           (unloaded 0 8 2)); reflexivity.
Defined.

(** X14.  A successful load builds an empty quiescent ring whatever the
    fresh block happens to contain and whatever the cursors and counts
    held before: it returns 0, no record is pending, [writer] is the
    number of slots, and the first read sleeps until a write comes. *)
Theorem init_gives_empty_ring (k : kernel) (s : scull) (room count : Z) :
  params_ok s -> scull_mutex s = false ->
  0 <= region_result k -> cdev_add_result k = 0 -> kmalloc_ok k = true ->
  fst (scull_init_module k s) = 0
  /\ Rep (snd (scull_init_module k s)) []
  /\ queue_contents (snd (scull_init_module k s)) = Some []
  /\ writer (snd (scull_init_module k s)) = scull_fifo_size s
  /\ scull_read false (snd (scull_init_module k s)) room count = Blocked.
Proof.
  intros Hp Hm Hr Hc Hk.
  pose proof (init_Rep k s Hp Hm Hr Hc Hk) as HR.
  destruct (init_success k s Hp Hr Hc Hk)
    as (s' & m & E & _ & _ & Hw & _).
  rewrite E in *. cbn [fst snd] in *.
  split; [reflexivity|]. split; [exact HR|].
  split; [apply Rep_contents; exact HR|]. split; [exact Hw|].
  destruct (Rep_reader _ _ HR) as [Hrd _]. cbn [length] in Hrd.
  destruct (Rep_entry _ _ HR) as (sz & Ee).
  unfold scull_read. rewrite Ee.
  unfold scull_read_body, down_interruptible.
  destruct (Z.ltb_spec 0 (reader s')); [lia|reflexivity].
Qed.

Lemma init_gives_empty_ring_witness :
  let k := mkKernel 0 240 0 true (fun i => Z.of_nat i mod 256) in
  let s := mkScull 0 4000 10 false false false 7 9 None 123 456 in
  fst (scull_init_module k s) = 0
  /\ Rep (snd (scull_init_module k s)) []
  /\ queue_contents (snd (scull_init_module k s)) = Some []
  /\ writer (snd (scull_init_module k s)) = scull_fifo_size s
  /\ scull_read false (snd (scull_init_module k s)) 4000 4000 = Blocked.
Proof.
  apply (init_gives_empty_ring
           (mkKernel 0 240 0 true (fun i => Z.of_nat i mod 256))
           (mkScull 0 4000 10 false false false 7 9 None 123 456)
           4000 4000).
  - vm_compute. repeat split; (reflexivity || discriminate).
  - reflexivity.
  - vm_compute. discriminate.
  - reflexivity.
  - reflexivity.
Defined.

(** X15.  The major number: a major given at load time is kept whatever
    the outcome of the load; with none given (0) and the device numbers
    obtained, the major is the one the kernel assigned; with none given
    and no device numbers obtained, it stays 0. *)
Theorem init_major (k : kernel) (s : scull) :
  (scull_major s <> 0 ->
   scull_major (snd (scull_init_module k s)) = scull_major s)
  /\ (scull_major s = 0 -> 0 <= region_result k ->
      scull_major (snd (scull_init_module k s)) = dyn_major k)
  /\ (scull_major s = 0 -> region_result k < 0 ->
      scull_major (snd (scull_init_module k s)) = 0).
Proof.
  unfold scull_init_module, kmalloc.
  destruct (Z.eqb_spec (scull_major s) 0) as [Hm|Hm]; cbn [negb];
  destruct (Z.ltb_spec (region_result k) 0) as [Hreg|Hreg];
  destruct (negb (cdev_add_result k =? 0));
  destruct (kmalloc_ok k); cbn [snd]; proj;
  (split; [|split]); intros; try reflexivity; try congruence; try lia.
Qed.

Lemma init_major_witness :
  scull_major (snd (scull_init_module kind_kernel (unloaded 61 8 2))) = 61
  /\ scull_major (snd (scull_init_module kind_kernel (unloaded 0 8 2)))
     = 240.
Proof.
  split.
  - apply (init_major kind_kernel (unloaded 61 8 2)). vm_compute.
    discriminate.
  - apply (init_major kind_kernel (unloaded 0 8 2)).
    + reflexivity.
    + vm_compute. discriminate.
Defined.


(** X16.  A reader works with the locals it set on entry.  Let a reader
    enter in state [s0], and let it get to run in a quiescent state [s]
    whose [head] is where it was, with the record [r] under it.  If the
    length the reader saw on entry is at most the length of [r], the
    reader returns the smaller of [count] and that old length and delivers
    only that many bytes of [r], however large [count] and the room are;
    the record is consumed whole and the ring holds the younger
    records. *)
Theorem stale_reader_cuts_record (signal : bool) (s0 s : scull)
    (fr : read_frame) (r : list byte) (q : list (list byte))
    (room count : Z) :
  scull_read_entry s0 = Some fr -> head s0 = head s ->
  Rep s (r :: q) ->
  0 <= r_dataSize fr <= Z.of_nat (length r) ->
  0 <= count < 2 ^ 64 ->
  Z.min count (r_dataSize fr) <= room ->
  exists s',
    scull_read_body fr signal s room count
    = Returned (Z.min count (r_dataSize fr),
                firstn (Z.to_nat (Z.min count (r_dataSize fr))) r, s')
    /\ Rep s' q.
Proof.
  intros He Hh0 HR Hds Hc Hroom.
  assert (Hptr : r_dataPtr fr = head s + sizeof_ssize_t).
  { unfold scull_read_entry in He.
    destruct (scull_message_queue s0); [|discriminate].
    destruct (load_ssize l (head s0)); [|discriminate].
    injection He as <-. cbn [r_dataPtr]. rewrite Hh0. reflexivity. }
  pose proof (Rep_head_length _ _ _ HR) as Hle.
  destruct HR as [m hi Hp Hmx Hq Hlen Hhi Hhead Hend Hrd Hwr Hpend].
  pose proof (pending_length _ _ _ _ _ Hpend) as HL. simpl in HL.
  replace (Z.to_nat (reader s)) with (S (Z.to_nat (reader s - 1))) in Hpend
    by lia.
  cbn [pending] in Hpend.
  destruct (slot_record s m (head s)) as [r0|] eqn:Hrec; [|discriminate].
  rewrite Hhead in Hpend at 1. rewrite (advance_slot s hi Hp Hhi) in Hpend.
  destruct (pending s m (slot_bytes s * ((hi + 1) mod scull_fifo_size s))
              (Z.to_nat (reader s - 1))) as [q0|] eqn:Hrest; [|discriminate].
  injection Hpend as -> ->.
  apply slot_record_inv in Hrec.
  destruct Hrec as (len & Hld & Hlen' & Hpay & Hrl).
  set (n := Z.min count (r_dataSize fr)) in *.
  assert (Hn : 0 <= n <= len) by lia.
  pose proof Hp as [Hsz Hes].
  unfold scull_read_body, down_interruptible.
  destruct (Z.ltb_spec 0 (reader s)); [|lia].
  proj. unfold mutex_lock_interruptible. rewrite Hmx. proj. rewrite Hq.
  rewrite (u64_small (r_dataSize fr)) by lia.
  assert (Hcnt : (if count >? r_dataSize fr then r_dataSize fr else count)
                 = n).
  { rewrite Z.gtb_ltb. destruct (Z.ltb_spec (r_dataSize fr) count); lia. }
  rewrite Hcnt, Hptr. unfold copy_to_user.
  replace (Z.min n (Z.max 0 room)) with n by lia.
  rewrite (load_bytes_prefix _ _ _ n _ Hpay) by lia.
  rewrite Z.sub_diag.
  rewrite (advance_ext _ s) by reflexivity.
  assert (Hadv : advance s (head s)
                 = Some (slot_bytes s * ((hi + 1) mod scull_fifo_size s)))
    by (rewrite Hhead; apply (advance_slot s hi Hp Hhi)).
  rewrite Hadv, (s64_small n) by lia.
  eexists. split; [reflexivity|].
  assert (Hhi' : 0 <= (hi + 1) mod scull_fifo_size s < scull_fifo_size s)
    by (apply Z.mod_pos_bound; lia).
  apply Rep_intro with (m := m) (hi := (hi + 1) mod scull_fifo_size s);
    proj; try assumption; try reflexivity; try (rewrite ?up_small by lia; lia).
  - rewrite Hend. f_equal. rewrite Zplus_mod_idemp_l. f_equal. lia.
  - rewrite <- Hrest. apply pending_ext; reflexivity.
Qed.

Lemma stale_reader_cuts_record_witness :
  exists s',
    scull_read_body (mkReadFrame 8 3) false
      (after_write
         (after_read
            (after_read
               (after_write (after_write demo_ring [97; 98; 99] 3)
                  [100; 101] 2) 8 8) 8 8)
         [104; 101; 108; 108; 111] 5) 8 8
    = Returned (Z.min 8 3,
                firstn (Z.to_nat (Z.min 8 3)) [104; 101; 108; 108; 111], s')
    /\ Rep s' [].
Proof.
  apply (stale_reader_cuts_record false
           (after_read
              (after_read
                 (after_write (after_write demo_ring [97; 98; 99] 3)
                    [100; 101] 2) 8 8) 8 8)
           (after_write
              (after_read
                 (after_read
                    (after_write (after_write demo_ring [97; 98; 99] 3)
                       [100; 101] 2) 8 8) 8 8)
              [104; 101; 108; 108; 111] 5)
           (mkReadFrame 8 3) [104; 101; 108; 108; 111] [] 8 8).
  - vm_compute. reflexivity.
  - vm_compute. reflexivity.
  - rep_by_eval 0.
  - vm_compute. split; discriminate.
  - vm_compute. split; [discriminate|reflexivity].
  - vm_compute. discriminate.
Defined.

(** X17.  A writer works with the slot it saw on entry.  On a quiescent
    ring with two free slots, let writer A enter, and let writer B run
    from entry to return before A takes its permit.  Both calls return
    their byte counts and [reader] grows by two, but A stores into the
    slot B has just filled: that slot now holds A's record, B's record is
    gone, and [head] has not moved. *)
Theorem stale_writer_overwrites (signal : bool) (s : scull)
    (q : list (list byte)) (srcA srcB : list byte) (countA countB : Z) :
  Rep s q -> Z.of_nat (length q) + 1 < scull_fifo_size s ->
  0 <= countA < 2 ^ 64 -> 0 <= countB < 2 ^ 64 ->
  Z.min countA (scull_fifo_elemsz s) <= Z.of_nat (length srcA) ->
  Z.min countB (scull_fifo_elemsz s) <= Z.of_nat (length srcB) ->
  exists s1 s2 m2,
    scull_write signal s srcB countB
    = Returned (Z.min countB (scull_fifo_elemsz s), s1)
    /\ queue_contents s1
       = Some (q ++ [accepted (scull_fifo_elemsz s) srcB countB])
    /\ scull_write_body (scull_write_entry s) signal s1 srcA countA
       = Returned (Z.min countA (scull_fifo_elemsz s), s2)
    /\ scull_message_queue s2 = Some m2
    /\ slot_record s2 m2 (end_ s)
       = Some (accepted (scull_fifo_elemsz s) srcA countA)
    /\ reader s2 = reader s + 2 /\ writer s2 = writer s - 2
    /\ head s2 = head s.
Proof.
  intros HR Hfree HcA HcB HsA HsB.
  destruct (write_serial signal s q srcB countB HR)
    as (s1 & EB & HR1 & Hadv1 & Hh1 & Hr1 & Hw1 & Ees1 & Esz1); try lia.
  exists s1.
  pose proof (Rep_contents _ _ HR1) as Hc1.
  destruct HR as [m hi Hp Hmx Hq Hlen Hhi Hhead Hend Hrd Hwr Hpend].
  destruct HR1 as [m1 hi1 Hp1 Hmx1 Hq1 Hlen1 Hhi1 Hhead1 Hend1 Hrd1 Hwr1 Hpend1].
  pose proof (pending_length _ _ _ _ _ Hpend) as HL.
  pose proof Hp as [Hsz Hes].
  pose proof (slot_bytes_eq s Hp) as Esl.
  pose proof (ring_bytes_eq s Hp) as Ering.
  pose proof (slot_bytes_ext s1 s Ees1) as Esl1.
  pose proof (ring_bytes_ext s1 s Ees1 Esz1) as Ering1.
  set (n := Z.min countA (scull_fifo_elemsz s)) in *.
  set (t := (hi + reader s) mod scull_fifo_size s) in *.
  assert (Ht : 0 <= t < scull_fifo_size s) by (apply Z.mod_pos_bound; lia).
  assert (Hn : 0 <= n <= scull_fifo_elemsz s) by lia.
  set (bs := firstn (Z.to_nat n) srcA).
  assert (Hbs : Z.of_nat (length bs) = n)
    by (unfold bs; rewrite length_firstn; lia).
  assert (Hend_lo : 0 <= end_ s) by (rewrite Hend; nia).
  assert (Hend_hi : end_ s + slot_bytes s <= Z.of_nat (length m1))
    by (rewrite Hlen1, Ering1, Ering, Hend, Esl; nia).
  destruct (store_bytes m1 (end_ s + sizeof_ssize_t) bs) as [m1a|] eqn:Hst1.
  2:{ rewrite store_bytes_Some in Hst1; [discriminate| |];
      unfold sizeof_ssize_t; lia. }
  pose proof (store_bytes_inv _ _ _ _ Hst1) as (_ & _ & _ & HL1).
  destruct (store_ssize m1a (end_ s) n) as [m2|] eqn:Hst2.
  2:{ unfold store_ssize in Hst2.
      rewrite store_bytes_Some in Hst2; [discriminate| |];
      rewrite ?le_encode_length; unfold sizeof_ssize_t in *; lia. }
  assert (Hadv2 : exists e2, advance s1 (end_ s1) = Some e2).
  { rewrite (advance_ext s1 s) by assumption.
    rewrite Hend in Hadv1. rewrite (advance_slot s t Hp Ht) in Hadv1.
    injection Hadv1 as <-.
    rewrite advance_slot; [eexists; reflexivity|exact Hp|].
    apply Z.mod_pos_bound. lia. }
  destruct Hadv2 as (e2 & Hadv2).
  eexists. exists m2. split; [exact EB|]. split; [exact Hc1|].
  unfold scull_write_body, scull_write_entry, down_interruptible.
  destruct (Z.ltb_spec 0 (writer s1)); [|lia].
  proj. unfold mutex_lock_interruptible. rewrite Hmx1. proj. rewrite Hq1.
  rewrite Ees1, (u64_small (scull_fifo_elemsz s)) by lia.
  assert (Hcnt : (if countA >? scull_fifo_elemsz s
                  then scull_fifo_elemsz s else countA) = n).
  { rewrite Z.gtb_ltb.
    destruct (Z.ltb_spec (scull_fifo_elemsz s) countA); lia. }
  rewrite Hcnt. unfold copy_from_user.
  replace (Z.min n (Z.of_nat (length srcA))) with n by lia.
  rewrite Z.sub_diag. change (repeat 0 (Z.to_nat 0)) with (@nil byte).
  rewrite app_nil_r. fold bs. rewrite Hst1, Hst2.
  rewrite (advance_ext _ s1) by reflexivity.
  rewrite Hadv2, (s64_small n) by lia.
  split; [reflexivity|]. proj. split; [reflexivity|].
  split; [|rewrite ?up_small by lia; repeat split; lia].
  unfold slot_record. proj. rewrite Ees1.
  rewrite (load_store_ssize _ _ _ _ Hst2) by lia.
  destruct (Z.leb_spec 0 n); [|lia].
  destruct (Z.leb_spec n (scull_fifo_elemsz s)); [|lia].
  cbn [andb]. unfold store_ssize in Hst2.
  rewrite (load_store_other _ _ _ _ _ _ Hst2)
    by (rewrite le_encode_length; unfold sizeof_ssize_t; lia).
  rewrite <- Hbs at 1. unfold accepted. fold n. fold bs.
  apply (load_store_same _ _ _ _ Hst1).
Qed.

Lemma stale_writer_overwrites_witness :
  exists s1 s2 m2,
    scull_write false demo_ring [98; 98] 2
    = Returned (Z.min 2 (scull_fifo_elemsz demo_ring), s1)
    /\ queue_contents s1
       = Some ([] ++ [accepted (scull_fifo_elemsz demo_ring) [98; 98] 2])
    /\ scull_write_body (scull_write_entry demo_ring) false s1 [97] 1
       = Returned (Z.min 1 (scull_fifo_elemsz demo_ring), s2)
    /\ scull_message_queue s2 = Some m2
    /\ slot_record s2 m2 (end_ demo_ring)
       = Some (accepted (scull_fifo_elemsz demo_ring) [97] 1)
    /\ reader s2 = reader demo_ring + 2 /\ writer s2 = writer demo_ring - 2
    /\ head s2 = head demo_ring.
Proof.
  apply (stale_writer_overwrites false demo_ring [] [97] [98; 98] 1 2).
  - rep_by_eval 0.
  - vm_compute. reflexivity.
  - vm_compute. split; [discriminate|reflexivity].
  - vm_compute. split; [discriminate|reflexivity].
  - vm_compute. discriminate.
  - vm_compute. discriminate.
Defined.

Lemma writes_reads_length (es : Z) (ops : list op) :
  (length (writes es ops) + reads ops = length ops)%nat.
Proof.
  induction ops as [|[src count|room count] rest IH]; cbn [writes reads length];
    lia.
Qed.

(** X18.  The ring holds exactly [scull_fifo_size] records: a serial run
    of that many feasible writes and no read on an empty quiescent ring
    ends with [writer = 0], every record pending, and the next write
    sleeps whatever its source and count. *)
Theorem ring_fills_then_waits (s : scull) (ops : list op)
    (src : list byte) (count : Z) :
  Rep s [] ->
  feasible (scull_fifo_elemsz s) (scull_fifo_size s) ops [] = true ->
  reads ops = O -> Z.of_nat (length ops) = scull_fifo_size s ->
  exists s',
    run ops s = Some ([], s')
    /\ queue_contents s' = Some (writes (scull_fifo_elemsz s) ops)
    /\ writer s' = 0
    /\ scull_write false s' src count = Blocked.
Proof.
  intros HR Hf Hr Hlen.
  destruct (run_feasible_rep _ _ ops s [] eq_refl eq_refl HR Hf)
    as (outs & s' & E & Ees & Esz & HR').
  destruct (run_feasible _ _ ops s [] eq_refl eq_refl HR Hf)
    as (outs2 & s2 & E2 & Ho & _).
  rewrite E in E2. injection E2 as <- <-.
  rewrite Hr in *. cbn [firstn skipn app] in *. subst outs.
  pose proof (writes_reads_length (scull_fifo_elemsz s) ops) as HL.
  rewrite Hr in HL.
  destruct (Rep_reader _ _ HR') as [Hrd Hw].
  exists s'. split; [exact E|]. split; [apply Rep_contents; exact HR'|].
  split; [lia|].
  unfold scull_write, scull_write_body, down_interruptible.
  destruct (Z.ltb_spec 0 (writer s')); [lia|reflexivity].
Qed.

Lemma ring_fills_then_waits_witness :
  exists s',
    run [DoWrite [97] 1; DoWrite [98; 99] 2] demo_ring = Some ([], s')
    /\ queue_contents s' = Some [[97]; [98; 99]]
    /\ writer s' = 0
    /\ scull_write false s' [100] 1 = Blocked.
Proof.
  apply (ring_fills_then_waits demo_ring
           [DoWrite [97] 1; DoWrite [98; 99] 2] [100] 1).
  - rep_by_eval 0.
  - vm_compute. reflexivity.
  - reflexivity.
  - vm_compute. reflexivity.
Defined.

(** X19.  A write of zero bytes is a write: on a quiescent ring with a
    free slot it returns 0 without needing a readable source, takes a
    slot, and queues an empty record. *)
Theorem zero_count_write_queues_empty_record (signal : bool) (s : scull)
    (q : list (list byte)) (src : list byte) :
  Rep s q -> Z.of_nat (length q) < scull_fifo_size s ->
  exists s',
    scull_write signal s src 0 = Returned (0, s')
    /\ Rep s' (q ++ [[]])
    /\ writer s' = writer s - 1 /\ reader s' = reader s + 1.
Proof.
  intros HR Hfree. pose proof (Rep_params _ _ HR) as [Hsz Hes].
  destruct (write_serial signal s q src 0 HR Hfree)
    as (s' & E & HR' & _ & _ & Hr & Hw & _); try lia.
  replace (Z.min 0 (scull_fifo_elemsz s)) with 0 in E by lia.
  unfold accepted in HR'.
  replace (Z.min 0 (scull_fifo_elemsz s)) with 0 in HR' by lia.
  cbn [Z.to_nat firstn] in HR'.
  exists s'. auto.
Qed.

Lemma zero_count_write_queues_empty_record_witness :
  exists s',
    scull_write false demo_ring [] 0 = Returned (0, s')
    /\ Rep s' ([] ++ [[]])
    /\ writer s' = writer demo_ring - 1 /\ reader s' = reader demo_ring + 1.
Proof.
  apply (zero_count_write_queues_empty_record false demo_ring [] []).
  - rep_by_eval 0.
  - vm_compute. reflexivity.
Defined.

(** X20.  A read of zero bytes is a read: on a quiescent ring holding at
    least one record it returns 0 and delivers nothing, whatever the room,
    and the oldest record is consumed all the same. *)
Theorem zero_count_read_drops_record (signal : bool) (s : scull)
    (r : list byte) (q : list (list byte)) (room : Z) :
  Rep s (r :: q) ->
  exists s',
    scull_read signal s room 0 = Returned (0, [], s')
    /\ Rep s' q
    /\ reader s' = reader s - 1 /\ writer s' = writer s + 1.
Proof.
  intros HR. rewrite read_room_clamped.
  destruct (read_serial signal s r q (Z.max 0 room) 0 HR)
    as (s' & E & HR' & _ & _ & Hr & Hw & _); try lia.
  replace (Z.min 0 (Z.of_nat (length r))) with 0 in E by lia.
  cbn [Z.to_nat firstn] in E.
  exists s'. auto.
Qed.

Lemma zero_count_read_drops_record_witness :
  exists s',
    scull_read false (after_write demo_ring [97; 98; 99] 3) 0 0
    = Returned (0, [], s')
    /\ Rep s' []
    /\ reader s' = reader (after_write demo_ring [97; 98; 99] 3) - 1
    /\ writer s' = writer (after_write demo_ring [97; 98; 99] 3) + 1.
Proof.
  apply (zero_count_read_drops_record false
           (after_write demo_ring [97; 98; 99] 3) [97; 98; 99] [] 0).
  rep_by_eval 0.
Defined.

Lemma advance_n_slot (s : scull) (n : nat) :
  params_ok s ->
  forall i, 0 <= i < scull_fifo_size s ->
    advance_n s n (slot_bytes s * i)
    = Some (slot_bytes s * ((i + Z.of_nat n) mod scull_fifo_size s)).
Proof.
  intros Hp. induction n as [|n IH]; intros i Hi.
  - cbn [advance_n]. rewrite Z.add_0_r, Z.mod_small by lia. reflexivity.
  - cbn [advance_n]. rewrite (advance_slot s i Hp Hi).
    rewrite IH by (apply Z.mod_pos_bound; lia).
    rewrite Zplus_mod_idemp_l. do 3 f_equal. lia.
Qed.

(** X21.  The cursors go round the ring.  With parameters in range, a
    cursor on a slot boundary inside the block stays on a slot boundary
    inside the block when moved, moving it [n] times from slot [i] puts it
    on slot [(i + n) mod scull_fifo_size], and after [scull_fifo_size]
    moves it is back where it started. *)
Theorem advance_goes_round (s : scull) (i : Z) (n : nat) :
  params_ok s -> 0 <= i < scull_fifo_size s ->
  advance_n s n (slot_bytes s * i)
  = Some (slot_bytes s * ((i + Z.of_nat n) mod scull_fifo_size s))
  /\ 0 <= slot_bytes s * ((i + Z.of_nat n) mod scull_fifo_size s)
     < ring_bytes s
  /\ advance_n s (Z.to_nat (scull_fifo_size s)) (slot_bytes s * i)
     = Some (slot_bytes s * i).
Proof.
  intros Hp Hi. pose proof (slot_bytes_eq s Hp) as Esl.
  pose proof (ring_bytes_eq s Hp) as Ering. pose proof Hp as [Hsz Hes].
  split; [apply advance_n_slot; assumption|]. split.
  - assert (B : 0 <= (i + Z.of_nat n) mod scull_fifo_size s
                < scull_fifo_size s) by (apply Z.mod_pos_bound; lia).
    rewrite Ering, Esl. nia.
  - rewrite advance_n_slot by assumption. do 2 f_equal.
    rewrite Z2Nat.id by lia.
    rewrite <- (Z.mul_1_l (scull_fifo_size s)) at 1.
    rewrite Z.mod_add by lia. apply Z.mod_small. exact Hi.
Qed.

Lemma advance_goes_round_witness :
  advance_n demo_ring 5 (slot_bytes demo_ring * 1)
  = Some (slot_bytes demo_ring * ((1 + Z.of_nat 5) mod 2))
  /\ 0 <= slot_bytes demo_ring * ((1 + Z.of_nat 5) mod 2)
     < ring_bytes demo_ring
  /\ advance_n demo_ring (Z.to_nat 2) (slot_bytes demo_ring * 1)
     = Some (slot_bytes demo_ring * 1).
Proof.
  apply (advance_goes_round demo_ring 1 5).
  - vm_compute. repeat split; (reflexivity || discriminate).
  - vm_compute. split; [discriminate|reflexivity].
Defined.
